(** * MIA contamination checker: the Myers aligner and [ccheck]

    A shallow embedding of [myers_diff] (myers_align.c) and of the
    diagnostic-position, classification and summary code of
    [src/ccheck.cc], with the properties of the specification checked
    against it.

    Conventions of the embedding.
    - A C string is the [list ascii] of its characters before the
      terminating NUL; [strlen] is [length].
    - [int] and [unsigned] values are integers in [Z].  Signed overflow
      is undefined in C and is outside the model: [+ 1] on an [int] is
      the addition of [Z], which is what the source computes as long as
      the result is at most [INT_MAX].  A statement that depends on this
      carries the bound among its hypotheses.
    - Automatic arrays are not initialised by the source.  Their initial
      contents are explicit arguments ([junk] for the table [v_],
      [ia]/[ib] for the output buffers), so that a statement which holds
      for every such argument holds whatever the stack contained.
    - [double] is IEEE 754 binary64 ([PrimFloat]); [sqrt] is correctly
      rounded. *)

From Stdlib Require Import ZArith Ascii String List Bool Lia.
From Stdlib Require Import Floats.
From stdpp Require Import base option list gmap strings.

#[local] Open Scope Z_scope.

(** ** AmbiguityAlphabet *)

Module Alphabet.

(** Modelled from the spec: [char_to_bitmap] is declared in a header
    (myers_align.h) that is absent from the sources.  Section 4.1 asks
    for the four bases as single bits, [U] treated as [T], the standard
    ambiguity codes as unions of the four bases, and every undefined
    symbol failing closed (empty bitmap). *)
Definition char_to_bitmap (c : ascii) : Z :=
  match c with
  | "A" => 1 | "C" => 2 | "G" => 4 | "T" => 8 | "U" => 8
  | "M" => 3 | "R" => 5 | "S" => 6 | "V" => 7 | "W" => 9
  | "Y" => 10 | "H" => 11 | "K" => 12 | "D" => 13 | "B" => 14
  | "N" => 15
  | _ => 0
  end%char.

(** [inline int match( char a, char b )] *)
Definition match_ (a b : ascii) : bool :=
  negb (Z.land (char_to_bitmap a) (char_to_bitmap b) =? 0).

End Alphabet.

(** ** ApproximateAligner: [myers_diff] *)

Module Myers.
Import Alphabet.

Inductive myers_align_mode : Set :=
| myers_align_globally
| myers_align_is_prefix
| myers_align_has_prefix.

Definition mode_eqb (m1 m2 : myers_align_mode) : bool :=
  match m1, m2 with
  | myers_align_globally, myers_align_globally
  | myers_align_is_prefix, myers_align_is_prefix
  | myers_align_has_prefix, myers_align_has_prefix => true
  | _, _ => false
  end.

Definition UINT_MAX : Z := 4294967295.

Definition min (a b : Z) : Z := if a <? b then a else b.
Definition max (a b : Z) : Z := if a <? b then b else a.
Definition max3 (a b c : Z) : Z := if a <? b then max b c else max a c.

(** The table [v[k][d]]: furthest-reaching [x] on diagonal [k] after
    [d] differences.  It starts as whatever the stack holds. *)
Definition vtable : Type := Z -> Z -> Z.

Definition vset (v : vtable) (k d x : Z) : vtable :=
  fun k' d' => if (k' =? k) && (d' =? d) then x else v k' d'.

(** [s[i]] for a C string: the characters, then the terminator at
    [strlen s]; any other index is outside the object. *)
Definition char_at (s : list ascii) (i : Z) : option ascii :=
  if (0 <=? i) && (i <? Z.of_nat (length s)) then s !! Z.to_nat i
  else if i =? Z.of_nat (length s) then Some Ascii.zero
  else None.

(** An output buffer seen from its base pointer: contents by offset,
    and the offsets stored to, latest first. *)
Record buffer : Type := Buffer {
  cells : Z -> ascii;
  stores : list Z
}.

Definition poke (b : buffer) (off : Z) (c : ascii) : buffer :=
  {| cells := fun i => if i =? off then c else cells b i;
     stores := off :: stores b |}.

(** [memmove( bt, bt + src, n )] *)
Definition memmove0 (b : buffer) (src n : Z) : buffer :=
  {| cells := fun i => if (0 <=? i) && (i <? n) then cells b (src + i)
                       else cells b i;
     stores := rev (map Z.of_nat (seq 0 (Z.to_nat n))) ++ stores b |}.

(** The C string found at the base of a buffer, reading at most [cap]
    characters. *)
Fixpoint c_str (cap : nat) (m : Z -> ascii) (i : Z) : list ascii :=
  match cap with
  | O => []
  | S cap' =>
      if Ascii.eqb (m i) Ascii.zero then [] else m i :: c_str cap' m (i + 1)
  end.

(** State of the traceback: the cursors [out_a], [out_b] as offsets
    from [bt_a], [bt_b], and the two buffers. *)
Record tb : Type := Tb {
  out_a : Z;
  out_b : Z;
  buf_a : buffer;
  buf_b : buffer
}.

(** [*--out_a = c] and [*--out_b = c] *)
Definition push_a (c : ascii) (t : tb) : tb :=
  {| out_a := out_a t - 1; out_b := out_b t;
     buf_a := poke (buf_a t) (out_a t - 1) c; buf_b := buf_b t |}.

Definition push_b (c : ascii) (t : tb) : tb :=
  {| out_a := out_a t; out_b := out_b t - 1;
     buf_a := buf_a t; buf_b := poke (buf_b t) (out_b t - 1) c |}.

(** What [myers_diff] leaves behind: the returned distance and the two
    output buffers. *)
Record result : Type := Result {
  ret : Z;
  bt_a : buffer;
  bt_b : buffer
}.

(** Outcome of the forward scan of one or more diagonals. *)
Inductive scan : Type :=
| Hit (d k x y : Z) (v : vtable)
| Miss (v : vtable).

Section Diff.

Variable seq_a : list ascii.
Variable mode : myers_align_mode.
Variable seq_b : list ascii.

Let len_a : Z := Z.of_nat (length seq_a).
Let len_b : Z := Z.of_nat (length seq_b).

(** The candidate [x] for diagonal [k] at distance [d] (the chain of
    [if]/[else if] that opens the body of the [k] loop). *)
Definition reach (v : vtable) (d k : Z) : Z :=
  if d =? 0 then 0
  else if k =? - d then v (k + 1) (d - 1)
  else if k =? - d + 1 then max (v k (d - 1) + 1) (v (k + 1) (d - 1))
  else if k =? d then v (k - 1) (d - 1) + 1
  else if k =? d - 1 then max (v k (d - 1) + 1) (v (k - 1) (d - 1) + 1)
  else max3 (v (k - 1) (d - 1) + 1) (v k (d - 1) + 1) (v (k + 1) (d - 1)).

(** [while( x < len_b && y < len_a && match( seq_b[x], seq_a[y] ) ) ++x, ++y ;]
    The loop runs at most [len_b - x] times, which is the fuel the
    caller passes.  [None]: a read outside one of the strings. *)
Fixpoint snake (n : nat) (x y : Z) : option (Z * Z) :=
  match n with
  | O => Some (x, y)
  | S n' =>
      if (x <? len_b) && (y <? len_a) then
        cb ← char_at seq_b x;
        ca ← char_at seq_a y;
        if match_ cb ca then snake n' (x + 1) (y + 1) else Some (x, y)
      else Some (x, y)
  end.

(** The test that ends the search. *)
Definition boundary (x y : Z) : bool :=
  (mode_eqb mode myers_align_is_prefix || (y =? len_a)) &&
  (mode_eqb mode myers_align_has_prefix || (x =? len_b)).

(** [for( k = ... ; k <= min(d,len_b) ; ++k )], [n] diagonals from [k]. *)
Fixpoint diagonals (n : nat) (d k : Z) (v : vtable) : option scan :=
  match n with
  | O => Some (Miss v)
  | S n' =>
      let x0 := reach v d k in
      '(x, y) ← snake (Z.to_nat (len_b - x0)) x0 (x0 - k);
      let v' := vset v k d x in
      if boundary x y then Some (Hit d k x y v')
      else diagonals n' d (k + 1) v'
  end.

(** [for( d = 0 ; d != maxd ; ++d )], [n] distances from [d]. *)
Fixpoint distances (n : nat) (d : Z) (v : vtable) : option scan :=
  match n with
  | O => Some (Miss v)
  | S n' =>
      let lo := max (- d) (- len_a) in
      let hi := min d len_b in
      r ← diagonals (Z.to_nat (hi - lo + 1)) d lo v;
      match r with
      | Hit _ _ _ _ _ => Some r
      | Miss v' => distances n' (d + 1) v'
      end
  end.

(** [for( dd = d ; dd != 0 ; ) { ... }]: one pass through the body
    lowers [dd] or [x], so [dd + x + 1] passes suffice whenever no read
    leaves the strings.  [None]: such a read, or the fuel is spent. *)
Fixpoint backtrack (n : nat) (v : vtable) (dd k x y : Z) (t : tb)
  : option (Z * tb) :=
  if dd =? 0 then Some (x, t) else
  match n with
  | O => None
  | S n' =>
      if negb (k =? - dd) && negb (k =? dd) && (x =? v k (dd - 1) + 1) then
        cb ← char_at seq_b (x - 1);
        ca ← char_at seq_a (y - 1);
        backtrack n' v (dd - 1) k (x - 1) (y - 1) (push_a ca (push_b cb t))
      else if (k >? - dd + 1) && (x =? v (k - 1) (dd - 1) + 1) then
        cb ← char_at seq_b (x - 1);
        backtrack n' v (dd - 1) (k - 1) (x - 1) y
                  (push_a "-"%char (push_b cb t))
      else if (k <? dd - 1) && (x =? v (k + 1) (dd - 1)) then
        ca ← char_at seq_a (y - 1);
        backtrack n' v (dd - 1) (k + 1) x (y - 1)
                  (push_a ca (push_b "-"%char t))
      else
        cb ← char_at seq_b (x - 1);
        ca ← char_at seq_a (y - 1);
        backtrack n' v dd k (x - 1) (y - 1) (push_a ca (push_b cb t))
  end.

(** [while( x > 0 ) { --x ; *--out_b = seq_b[x] ; *--out_a = seq_a[x] ; }] *)
Fixpoint leading (n : nat) (x : Z) (t : tb) : option tb :=
  match n with
  | O => Some t
  | S n' =>
      if x >? 0 then
        cb ← char_at seq_b (x - 1);
        ca ← char_at seq_a (x - 1);
        leading n' (x - 1) (push_a ca (push_b cb t))
      else Some t
  end.

(** The block entered when the boundary test succeeds.  Both
    terminating stores go through [out_a]; none goes through [out_b]. *)
Definition traceback (v : vtable) (d k x y : Z) (ia ib : Z -> ascii)
  : option result :=
  let t0 := {| out_a := len_a + d + 1; out_b := len_b + d + 1;
               buf_a := Buffer ia []; buf_b := Buffer ib [] |} in
  let t1 := push_a Ascii.zero t0 in
  let t2 := push_a Ascii.zero t1 in
  '(x', t3) ← backtrack (Z.to_nat d + Z.to_nat x + 1) v d k x y t2;
  t4 ← leading (Z.to_nat x') x' t3;
  Some {| ret := d;
          bt_a := memmove0 (buf_a t4) (out_a t4) (len_a + d + 1 - out_a t4);
          bt_b := memmove0 (buf_b t4) (out_b t4) (len_b + d + 1 - out_b t4) |}.

(** [unsigned myers_diff( seq_a, mode, seq_b, maxd, bt_a, bt_b )].
    [junk] is the initial content of [v_]; [ia], [ib] are the initial
    contents of the caller's buffers. *)
Definition myers_diff (maxd : Z) (junk : vtable) (ia ib : Z -> ascii)
  : option result :=
  let maxd := if maxd >? len_a + len_b then len_a + len_b else maxd in
  r ← distances (Z.to_nat maxd) 0 junk;
  match r with
  | Hit d k x y v => traceback v d k x y ia ib
  | Miss _ =>
      Some {| ret := UINT_MAX; bt_a := Buffer ia []; bt_b := Buffer ib [] |}
  end.

End Diff.

(** The gapped sequence a caller reads back from an output buffer of
    [cap] characters. *)
Definition returned (cap : nat) (b : buffer) : list ascii :=
  c_str cap (cells b) 0.

(** Every store into the buffer fell inside its first [cap] characters. *)
Definition within (cap : Z) (b : buffer) : bool :=
  forallb (fun off => (0 <=? off) && (off <? cap)) (stores b).

(** Removing the gap symbol. *)
Definition degap (s : list ascii) : list ascii :=
  filter (fun c => c <> "-"%char) s.

(** The reference point of the distance claims, after section 4.2 of
    the specification rather than the source: the least number of
    single-symbol insertions, deletions and substitutions that turns
    one sequence into the other, two symbols agreeing when [match_]
    says so. *)
Fixpoint edit_distance (a b : list ascii) : nat :=
  match a with
  | [] => length b
  | ca :: a' =>
      (fix inner (b : list ascii) : nat :=
         match b with
         | [] => length a
         | cb :: b' =>
             Nat.min (Nat.min (S (edit_distance a' b)) (S (inner b')))
                     ((if match_ cb ca then 0 else 1) + edit_distance a' b')%nat
         end) b
  end.

(** The number of leading positions at which two sequences carry
    matching symbols. *)
Fixpoint common (a b : list ascii) : nat :=
  match a, b with
  | ca :: a', cb :: b' => if match_ cb ca then S (common a' b') else 0
  | _, _ => 0
  end.

(** The two sequences match symbol by symbol over their whole length. *)
Definition matching (seq_a seq_b : list ascii) : Prop :=
  Forall2 (λ ca cb, match_ cb ca = true) seq_a seq_b.

(** When distance 0 ends the search, in the words of section 4.2 of the
    specification: the sequences match symbol by symbol, up to the end
    of both ([myers_align_globally]), of [seq_b] ([myers_align_is_prefix])
    or of [seq_a] ([myers_align_has_prefix]). *)
Definition matches_at_0 (mode : myers_align_mode) (seq_a seq_b : list ascii)
  : Prop :=
  match mode with
  | myers_align_globally => matching seq_a seq_b
  | myers_align_is_prefix => matching (take (length seq_b) seq_a) seq_b
  | myers_align_has_prefix => matching seq_a (take (length seq_a) seq_b)
  end.

(** A buffer of terminators and a zeroed table, for the examples. *)
Definition zeros : Z → ascii := λ _, Ascii.zero.
Definition clear_table : vtable := λ _ _, 0.

End Myers.

(** ** [ccheck.cc]: diagnostic positions, classification, summary *)

Module Ccheck.
Import Alphabet.

(** [a & ~32]: the character with bit 5 cleared. *)
Definition clear32 (a : ascii) : ascii :=
  ascii_of_N (Z.to_N (Z.land (Z.of_N (N_of_ascii a)) (Z.lnot 32))).

Definition is_gap (c : ascii) : bool := Ascii.eqb c "-".

(** [bool is_diagnostic( const char* aln1, const char* aln2 )], on the
    two characters pointed to. *)
Definition is_diagnostic (c1 c2 : ascii) : bool :=
  negb (Ascii.eqb c1 c2)
  && negb (Ascii.eqb c1 "N") && negb (Ascii.eqb c2 "N")
  && negb (Ascii.eqb c1 "-") && negb (Ascii.eqb c2 "-").

(** [bool is_transversion( char a, char b )] *)
Definition is_transversion (a b : ascii) : bool :=
  let u := clear32 a in
  let v := clear32 b in
  match u with
  | "A" => negb (Ascii.eqb v "G")
  | "C" => negb (Ascii.eqb v "T")
  | "G" => negb (Ascii.eqb v "A")
  | "T" | "U" => negb (Ascii.eqb v "C")
  | _ => false
  end%char.

(** [typedef std::map< int, std::pair< char, char > > dp_list ;] *)
Abbreviation dp_list := (gmap Z (ascii * ascii)).

(** The largest [int] (32 bits). *)
Definition INT_MAX : Z := 2147483647.

(** [dp_list mk_dp_list( aln1, aln2, transversions, span_from, span_to )]:
    the loop, with the map built so far as accumulator.  The counter
    [span_from] is an [int]; when it starts at or below [span_to] it
    stops there, so that [++span_from] never leaves the [int] range. *)
Fixpoint mk_dp_loop (aln1 aln2 : list ascii) (transversions : bool)
    (span_from span_to : Z) (l : dp_list) : dp_list :=
  match aln1, aln2 with
  | c1 :: aln1', c2 :: aln2' =>
      if span_from =? span_to then l
      else
        let l' :=
          if is_diagnostic c1 c2
             && (negb transversions || is_transversion c1 c2)
          then <[span_from := (c1, c2)]> l
          else l in
        let span_from' := if is_gap c2 then span_from else span_from + 1 in
        mk_dp_loop aln1' aln2' transversions span_from' span_to l'
  | _, _ => l
  end.

Definition mk_dp_list (aln1 aln2 : list ascii) (transversions : bool)
    (span_from span_to : Z) : dp_list :=
  mk_dp_loop aln1 aln2 transversions span_from span_to ∅.

(** The assembly coordinate of column [i], in the words of the
    specification: the number of non-gap assembly-side symbols strictly
    before the column. *)
Definition assembly_coordinate (aln2 : list ascii) (i : nat) : Z :=
  Z.of_nat (length (filter (fun c => is_gap c = false) (take i aln2))).

(** Column [i] of the alignment passes the filter of [mk_dp_list] and
    carries the pair [v]. *)
Definition recorded_column (aln1 aln2 : list ascii) (transversions : bool)
    (i : nat) (v : ascii * ascii) : Prop :=
  aln1 !! i = Some v.1 ∧ aln2 !! i = Some v.2
  ∧ is_diagnostic v.1 v.2 = true
  ∧ (transversions = true → is_transversion v.1 v.2 = true).

(** The purine / pyrimidine class of a symbol, in the words of the
    specification: [A], [G] and their union [R] are purines; [C], [T],
    [U] and the union [Y] are pyrimidines; no other symbol has a class. *)
Inductive ring : Set := purine | pyrimidine.

Definition ring_of (c : ascii) : option ring :=
  match clear32 c with
  | "A" | "G" | "R" => Some purine
  | "C" | "T" | "U" | "Y" => Some pyrimidine
  | _ => None
  end%char.

Definition class_change (a b : ascii) : bool :=
  match ring_of a, ring_of b with
  | Some purine, Some pyrimidine | Some pyrimidine, Some purine => true
  | _, _ => false
  end.

(** [bool consistent( bool adna, char x, char y )] *)
Definition consistent (adna : bool) (x y : ascii) : bool :=
  let x_ := if Ascii.eqb x "G" then "R"%char
            else if Ascii.eqb x "C" then "Y"%char else x in
  Ascii.eqb x "-" || Ascii.eqb y "-"
  || negb (Z.land (char_to_bitmap (if adna then x_ else x))
                  (char_to_bitmap y) =? 0).

(** The fold of the specification's ancient-DNA mode, stated on its
    own: [G] becomes [R] and [C] becomes [Y]. *)
Definition deaminated (x : ascii) : ascii :=
  if Ascii.eqb x "G" then "R"%char
  else if Ascii.eqb x "C" then "Y"%char else x.

(** [enum whatsit] without its end marker [maxwhatsits]. *)
Inductive whatsit : Set := unknown | clean | dirt | conflict | nonsense.

#[global] Instance whatsit_eq_dec : EqDecision whatsit.
Proof. solve_decision. Defined.

Definition whatsit_eqb (a b : whatsit) : bool := bool_decide (a = b).

(** The enumerator's value, used to index [summary]. *)
Definition slot (k : whatsit) : nat :=
  match k with
  | unknown => 0 | clean => 1 | dirt => 2 | conflict => 3 | nonsense => 4
  end.

(** [whatsit merge_whatsit( whatsit a, whatsit b )] *)
Definition merge_whatsit (a b : whatsit) : whatsit :=
  if whatsit_eqb a b then a
  else if whatsit_eqb a unknown then b
  else if whatsit_eqb b unknown then a
  else if whatsit_eqb a nonsense || whatsit_eqb b nonsense then nonsense
  else conflict.

(** The two checks made at a diagnostic position (the initialisers of
    [maybe_clean] and [maybe_dirt] in [main]). *)
Definition maybe_clean (adna : bool) (in_ass in_frag_v_ass : ascii) : bool :=
  consistent adna in_ass in_frag_v_ass.

Definition maybe_dirt (adna : bool) (in_ref0 in_frag_v_ref : ascii) : bool :=
  consistent adna in_ref0 in_frag_v_ref.

(** The six statements that update [klass] and [votes], in order. *)
Definition vote (mc md : bool) (kv : whatsit * Z) : whatsit * Z :=
  let '(klass, votes) := kv in
  let klass := if mc && negb md && whatsit_eqb klass unknown
               then clean else klass in
  let klass := if mc && negb md && whatsit_eqb klass dirt
               then conflict else klass in
  let klass := if negb mc && md && whatsit_eqb klass unknown
               then dirt else klass in
  let klass := if negb mc && md && whatsit_eqb klass clean
               then conflict else klass in
  let klass := if negb mc && negb md then nonsense else klass in
  let votes := if negb (eqb md mc) then votes + 1 else votes in
  (klass, votes).

(** What one pass of the lockstep walk does to [klass] and [votes]:
    [paln1], [paln2] are the current column of the global alignment,
    [in_ref0], [in_ass] the reference and assembly bases, and
    [in_frag_v_ref], [in_frag_v_ass] the fragment base in its alignment
    to the reference and to the assembly. *)
Definition classify_column (adna : bool)
    (paln1 paln2 in_ref0 in_ass in_frag_v_ref in_frag_v_ass : ascii)
    (kv : whatsit * Z) : whatsit * Z :=
  if is_diagnostic paln1 paln2 then
    if negb (Ascii.eqb in_frag_v_ref in_frag_v_ass) then kv
    else vote (maybe_clean adna in_ass in_frag_v_ass)
              (maybe_dirt adna in_ref0 in_frag_v_ref) kv
  else kv.

(** The state shared by the fragments: [int summary[maxwhatsits]] and
    the cache [bfrags] of back halves. *)
Record tally : Type := Tally {
  summary : list Z;
  bfrags : gmap string (whatsit * Z)
}.

Definition tally0 : tally := {| summary := [0; 0; 0; 0; 0]; bfrags := ∅ |}.

(** [summary[klass]++] *)
Definition count_up (klass : whatsit) (t : tally) : tally :=
  {| summary := alter (fun n => n + 1) (slot klass) (summary t);
     bfrags := bfrags t |}.

(** A fragment as the end of the loop body sees it: identifier, segment
    role, and the [klass] and [votes] its own evidence gave. *)
Record fragment : Type := Fragment {
  id : string;
  segment : ascii;
  klass : whatsit;
  votes : Z
}.

(** Case ['f'] when the back half is cached: the votes are added and
    the classes merged; without it the fragment keeps its own. *)
Definition reconcile (f : fragment) (t : tally) : whatsit * Z :=
  match bfrags t !! id f with
  | None => (klass f, votes f)
  | Some (bk, bv) => (merge_whatsit (klass f) bk, votes f + bv)
  end.

(** The [switch] on the segment role that ends the loop body, with the
    lookup in [bfrags] that precedes it.  Case ['f'] falls through into
    case ['a']; the votes only reach the verbose report. *)
Definition finish (f : fragment) (t : tally) : tally :=
  if Ascii.eqb (segment f) "b" then
    {| summary := summary t;
       bfrags := <[id f := (klass f, votes f)]> (bfrags t) |}
  else if Ascii.eqb (segment f) "f" then count_up (fst (reconcile f t)) t
  else if Ascii.eqb (segment f) "a" then count_up (klass f) t
  else t.

(** The loop over [maln->AlnSeqArray]. *)
Definition run (fs : list fragment) (t : tally) : tally :=
  fold_left (fun t f => finish f t) fs t.

(** [summary[k]] *)
Definition count (k : whatsit) (t : tally) : Z :=
  default 0 (summary t !! slot k).

(** Two tallies with the same counts whose caches differ at most at
    the identifier [i]. *)
Definition same_but (i : string) (t1 t2 : tally) : Prop :=
  summary t1 = summary t2 ∧ ∀ j, j ≠ i → bfrags t1 !! j = bfrags t2 !! j.

(** [double k = summary[dirt]]: an [int] count as a [double]. *)
Definition to_double (n : Z) : float := PrimFloat.of_uint63 (Uint63.of_Z n).

#[local] Set Warnings "-inexact-float".

(** The three numbers printed after the count of [dirt] fragments:
    lower bound, ML estimate and upper bound of the interval, from the
    counts of [dirt] and [clean] fragments.  Nothing guards the
    computation. *)
Definition interval (n_dirt n_clean : Z) : float * float * float :=
  (let z := 1.96 in
   let k := to_double n_dirt in
   let n := k + to_double n_clean in
   let p_ := k / n in
   let c := p_ + 0.5 * z * z / n in
   let w := z * PrimFloat.sqrt (p_ * (1 - p_) / n + 0.25 * z * z / (n * n)) in
   let d := 1 + z * z / n in
   (100.0 * (c - w) / d, 100.0 * p_, 100.0 * (c + w) / d))%float.

(** The distance from 0 or 100 that is put down to rounding. *)
Definition slack : float := 1e-13%float.

#[local] Set Warnings "+inexact-float".

Definition summary_interval (t : tally) : float * float * float :=
  interval (count dirt t) (count clean t).

(** [x <= y] on two doubles; it fails when either is a NaN. *)
Definition fle (x y : float) : Prop := (x <=? y)%float = true.
Arguments fle (x y)%_float.

(** What holds of the three numbers of the summary for the counts
    [n_dirt] and [n_clean], as a test on the doubles themselves: with
    fragments of both kinds they are in order between 0 and 100; with no
    [dirt] fragment the estimate is 0 and the lower bound is within
    [slack] of it; with no [clean] fragment the estimate is 100 and the
    upper bound is within [slack] of it. *)
Definition in_range (n_dirt n_clean : Z) : bool :=
  let '(lower, p, upper) := interval n_dirt n_clean in
  if (0 <? n_dirt) && (0 <? n_clean) then
    (0 <=? lower)%float && (lower <=? p)%float
    && (p <=? upper)%float && (upper <=? 100)%float
  else if 0 <? n_clean then
    (p =? 0)%float && (- slack <=? lower)%float && (lower <=? slack)%float
    && (p <=? upper)%float && (upper <=? 100)%float
  else if 0 <? n_dirt then
    (p =? 100)%float && (0 <=? lower)%float && (lower <=? p)%float
    && (100 - slack <=? upper)%float && (upper <=? 100 + slack)%float
  else true.

(** [f] holds of the [fuel] integers from [i] on. *)
Fixpoint upto (fuel : nat) (i : Z) (f : Z → bool) : bool :=
  match fuel with
  | O => true
  | S fuel' => f i && upto fuel' (i + 1) f
  end.

(** [in_range] on every pair of counts from 0 to [n]. *)
Definition grid (n : Z) : bool :=
  upto (Z.to_nat (n + 1)) 0
       (λ k, upto (Z.to_nat (n + 1)) 0 (λ c, in_range k c)).

(** [std::string lift_over( aln1, aln2, s, e )]: the loop from counter
    [p], with the string built so far. *)
Fixpoint lift_loop (aln1 aln2 : list ascii) (p s e : Z) (r : list ascii)
  : list ascii :=
  match aln1, aln2 with
  | c1 :: aln1', c2 :: aln2' =>
      if p <? e then
        let r' := if negb (is_gap c1) && (s <=? p) then r ++ [c1] else r in
        let p' := if is_gap c2 then p else p + 1 in
        lift_loop aln1' aln2' p' s e r'
      else r
  | _, _ => r
  end.

Definition lift_over (aln1 aln2 : list ascii) (s e : Z) : list ascii :=
  lift_loop aln1 aln2 0 s e [].

(** An iterator of [dp_list]: the key of the entry it points to, or
    [None] for [end()]. *)
Definition least (ks : list Z) : option Z :=
  foldr (λ k acc, Some (match acc with None => k | Some m => Z.min k m end))
        None ks.

(** [l.lower_bound( x )]: the first entry whose key is not below [x]. *)
Definition lower_bound (l : dp_list) (x : Z) : option Z :=
  least (filter (λ k, x ≤ k) (map fst (map_to_list l))).

(** [overlapped_diagnostic_positions( l, s )], on the fragment's
    [start] and [end].  [s->end + 1] is an [int] addition: it is the
    [end_ + 1] below for [end_ < INT_MAX]. *)
Definition overlapped_diagnostic_positions (l : dp_list) (start end_ : Z)
  : option Z * option Z :=
  (lower_bound l start, lower_bound l (end_ + 1)).

(** A [char*] that walks along a C string: the characters from the
    pointer to the terminator, or [None] once it has been moved past
    the terminator. *)
Definition cursor : Type := option (list ascii).

(** [*p]; nothing can be read past the terminator. *)
Definition deref (p : cursor) : option ascii :=
  match p with
  | Some (c :: _) => Some c
  | Some [] => Some Ascii.zero
  | None => None
  end.

(** [p++] *)
Definition bump (p : cursor) : cursor :=
  match p with
  | Some (_ :: s) => Some s
  | _ => None
  end.

(** The loop that brings [paln1], [paln2] and [ass_pos] to the start of
    the fragment. *)
Fixpoint seek (paln1 paln2 : list ascii) (ass_pos start : Z)
  : list ascii * list ascii * Z :=
  match paln1, paln2 with
  | _ :: paln1', c2 :: paln2' =>
      if ass_pos =? start then (paln1, paln2, ass_pos)
      else seek paln1' paln2' (if is_gap c2 then ass_pos else ass_pos + 1)
                start
  | _, _ => (paln1, paln2, ass_pos)
  end.

(** [do { in_ref = in_ref.substr(1) ; in_frag_v_ref++ ; } while( in_ref[0] == '-' ) ;]
    [None]: [substr(1)] of an empty string, which throws. *)
Fixpoint skip_ref (in_ref : list ascii) (in_frag_v_ref : cursor)
  : option (list ascii * cursor) :=
  match in_ref with
  | [] => None
  | _ :: rest =>
      match rest with
      | c :: _ => if is_gap c then skip_ref rest (bump in_frag_v_ref)
                  else Some (rest, bump in_frag_v_ref)
      | [] => Some (rest, bump in_frag_v_ref)
      end
  end.

(** [do { in_ass++ ; in_frag_v_ass++ ; } while( *in_ass == '-' ) ;] on
    the characters [in_ass] points to.  [None]: [in_ass] stood on the
    terminator, so that the test reads past it. *)
Fixpoint skip_ass (in_ass : list ascii) (in_frag_v_ass : cursor)
  : option (list ascii * cursor) :=
  match in_ass with
  | [] => None
  | _ :: rest =>
      match rest with
      | c :: _ => if is_gap c then skip_ass rest (bump in_frag_v_ass)
                  else Some (rest, bump in_frag_v_ass)
      | [] => Some (rest, bump in_frag_v_ass)
      end
  end.

(** The lockstep walk over the fragment's columns.  [None]: a read
    through a pointer that has left its string. *)
Fixpoint walk (adna : bool) (paln1 paln2 : list ascii) (ass_pos end_ : Z)
    (in_ref : list ascii) (in_frag_v_ref in_ass in_frag_v_ass : cursor)
    (kv : whatsit * Z) : option (whatsit * Z) :=
  match paln1, paln2 with
  | c1 :: paln1', c2 :: paln2' =>
      if ass_pos =? end_ + 1 then Some kv else
      match in_ref with
      | [] => Some kv
      | r0 :: _ =>
          a ← deref in_ass;
          if Ascii.eqb a Ascii.zero then Some kv else
          fa ← deref in_frag_v_ass;
          if Ascii.eqb fa Ascii.zero then Some kv else
          fr ← deref in_frag_v_ref;
          if Ascii.eqb fr Ascii.zero then Some kv else
          let kv' := classify_column adna c1 c2 r0 a fr fa kv in
          '(in_ref', in_frag_v_ref') ←
            (if is_gap c1 then Some (in_ref, in_frag_v_ref)
             else skip_ref in_ref in_frag_v_ref);
          '(ass_pos', in_ass', in_frag_v_ass') ←
            (if is_gap c2 then Some (ass_pos, in_ass, in_frag_v_ass)
             else '(s, f) ← skip_ass (default [] in_ass) in_frag_v_ass;
                  Some (ass_pos + 1, Some s, f));
          walk adna paln1' paln2' ass_pos' end_ in_ref' in_frag_v_ref'
               in_ass' in_frag_v_ass' kv'
      end
  | _, _ => Some kv
  end.

(** An assembled fragment ([AlnSeqP]): the fields [main] reads.  [ins]
    holds, for each position of [seq], the inserted string or [None]
    for a null pointer. *)
Record aln_seq : Type := AlnSeq {
  s_id : string;
  s_segment : ascii;
  s_start : Z;
  s_end : Z;
  s_seq : list ascii;
  s_ins : list (option (list ascii))
}.

(** What [main] keeps of the external aligner's answer ([pw_aln_frag]):
    the two gapped rows and the offset [frag_aln->abc] at which the
    alignment begins in the lifted reference. *)
Record pw_aln_frag : Type := PwAln {
  ref_seq : list ascii;
  frag_seq : list ascii;
  pw_start : Z
}.

(** The loop that builds [the_read] from [seq] and [ins].  [None]: the
    array [ins] ends before [seq] does. *)
Fixpoint the_read (seq : list ascii) (ins : list (option (list ascii)))
    (r : list ascii) : option (list ascii) :=
  match seq with
  | [] => Some r
  | nt :: seq' =>
      match ins with
      | [] => None
      | i :: ins' =>
          let r := if is_gap nt then r else r ++ [nt] in
          let r := match i with Some s => r ++ s | None => r end in
          the_read seq' ins' r
      end
  end.

(** [lifted.substr( 0, n )], [n] being converted to [size_t]. *)
Definition substr0 (s : list ascii) (n : Z) : list ascii :=
  if n <? 0 then s else take (Z.to_nat n) s.

(** [seq + start] for a C string [seq]. *)
Definition offset (seq : list ascii) (start : Z) : cursor :=
  if (0 <=? start) && (start <=? Z.of_nat (length seq))
  then Some (drop (Z.to_nat start) seq) else None.

(** [std::string the_ass( seq + start, end - start + 1 )]: that many
    characters from [seq + start] on, the terminator being a character
    of the array.  [None]: a negative length, which makes the
    constructor throw, or a range that leaves the array. *)
Definition the_ass (seq : list ascii) (start end_ : Z)
  : option (list ascii) :=
  if (0 <=? start) && (start <=? end_ + 1)
     && (end_ <=? Z.of_nat (length seq))
  then Some (take (Z.to_nat (end_ - start + 1))
                  (drop (Z.to_nat start) (seq ++ [Ascii.zero])))
  else None.

Section Classify.

(** The external semi-global aligner, from the lifted reference and the
    read to the alignment [main] walks. *)
Variable aligner : list ascii → list ascii → pw_aln_frag.
Variable adna : bool.
(** The global alignment, the assembly [maln->ref->seq] and the index. *)
Variables aln_con aln_ass ass_seq : list ascii.
Variable l : dp_list.

(** The body of the loop over the fragments, up to the [switch]:
    the test on the index, [the_read], [the_ass], the lifted reference
    and its alignment to the read, the search for the first column, the
    read of [in_ass[0]], and the walk. *)
Definition classify_fragment (s : aln_seq) : option (whatsit * Z) :=
  let p := overlapped_diagnostic_positions l (s_start s) (s_end s) in
  if decide (p.1 = p.2) then Some (unknown, 0)
  else
    read ← the_read (s_seq s) (s_ins s) [];
    _ ← the_ass ass_seq (s_start s) (s_end s);
    let lifted := lift_over aln_con aln_ass (s_start s) (s_end s + 1) in
    let pwaln := aligner lifted read in
    let '(paln1, paln2, ass_pos) := seek aln_con aln_ass 0 (s_start s) in
    let in_ref := substr0 lifted (pw_start pwaln) ++ ref_seq pwaln in
    let in_ass := offset ass_seq (s_start s) in
    _ ← deref in_ass;
    walk adna paln1 paln2 ass_pos (s_end s) in_ref
         (Some (frag_seq pwaln)) in_ass (Some (s_seq s)) (unknown, 0).

End Classify.

(** The aligner's answer when reference and read are laid side by side
    without any gap. *)
Definition side_by_side (lifted read : list ascii) : pw_aln_frag :=
  {| ref_seq := lifted; frag_seq := read; pw_start := 0 |}.

(** What one diagnostic position says on its own, in the words of
    section 4.4 of the specification. *)
Definition evidence (maybe_clean maybe_dirt : bool) : whatsit :=
  match maybe_clean, maybe_dirt with
  | true, false => clean
  | false, true => dirt
  | false, false => nonsense
  | true, true => unknown
  end.

(** A class and a vote count that fit together. *)
Definition fits (kv : whatsit * Z) : Prop :=
  match kv.1 with
  | unknown => kv.2 = 0
  | clean | dirt => 1 ≤ kv.2
  | conflict => 2 ≤ kv.2
  | nonsense => 0 ≤ kv.2
  end.

(** The order in which a class can only go up. *)
Definition rank (k : whatsit) : Z :=
  match k with
  | unknown => 0 | clean | dirt => 1 | conflict => 2 | nonsense => 3
  end.

(** The number of diagnostic columns of an alignment. *)
Definition diagnostic_columns (aln1 aln2 : list ascii) : Z :=
  Z.of_nat (length (filter (λ c, is_diagnostic c.1 c.2 = true)
                           (zip aln1 aln2))).

(** The sum of the counts of [summary]. *)
Definition total (t : tally) : Z := foldr Z.add 0 (summary t).

(** The fragments that reach [summary[klass]++]. *)
Definition tallied (f : fragment) : bool :=
  Ascii.eqb (segment f) "f" || Ascii.eqb (segment f) "a".

(** The four bases, in either case. *)
Definition plain_bases : list ascii :=
  ["A"; "C"; "G"; "T"; "a"; "c"; "g"; "t"]%char.

(** The scenario of section 8 of the specification: one substitution
    between reference and assembly, a fragment over the whole length
    that reads like the reference, and a fragment short of the
    diagnostic position. *)
Definition ex_ref : list ascii := list_ascii_of_string "ACGTACGTACGT".
Definition ex_ass : list ascii := list_ascii_of_string "ACGTACCTACGT".
Definition ex_index : dp_list := {[ 6 := ("G", "C")%char ]}.
Definition ex_whole : aln_seq :=
  AlnSeq "r1" "a" 0 11 (list_ascii_of_string "ACGTACGTACGT") (replicate 12 None).
Definition ex_short : aln_seq :=
  AlnSeq "r2" "a" 0 3 (list_ascii_of_string "ACGT") (replicate 4 None).

End Ccheck.

(** * Properties *)

Import Alphabet Myers Ccheck.

(** ** The examples of the specification, on the embedding *)

Example matches_R :
  match_ "R" "A" = true ∧ match_ "R" "G" = true ∧ match_ "R" "C" = false.
Proof. done. Qed.

Example prefix_is_distance_0 (junk : vtable) (ia ib : Z → ascii) :
  ret <$> myers_diff (list_ascii_of_string "ACGTACGT") myers_align_is_prefix
            (list_ascii_of_string "ACGT") 4 junk ia ib
  = Some 0.
Proof. by vm_compute. Qed.

Example four_columns :
  mk_dp_list (list_ascii_of_string "ANCT") (list_ascii_of_string "GT-C")
    false 0 100
  = {[ 0 := ("A", "G")%char; 2 := ("T", "C")%char ]}.
Proof. by vm_compute. Qed.

Example merges :
  merge_whatsit clean dirt = conflict ∧ merge_whatsit unknown dirt = dirt
  ∧ merge_whatsit nonsense clean = nonsense
  ∧ merge_whatsit clean clean = clean.
Proof. done. Qed.

Example ten_of_hundred : (interval 10 90).1.2 = 10%float.
Proof. by vm_compute. Qed.

(** ** Classification of one diagnostic position *)

Lemma vote_votes (mc md : bool) (k : whatsit) (n : Z) :
  (vote mc md (k, n)).2 = if xorb mc md then n + 1 else n.
Proof. by destruct mc, md. Qed.

Lemma vote_neither (k : whatsit) (n : Z) :
  vote false false (k, n) = (nonsense, n).
Proof. by destruct k. Qed.

Lemma vote_both (k : whatsit) (n : Z) : vote true true (k, n) = (k, n).
Proof. by destruct k. Qed.

(** C5.  At a diagnostic column where the fragment base is the same in
    its two alignments, the update adds one vote exactly when exactly
    one of [maybe_clean] and [maybe_dirt] holds (and none otherwise);
    when both fail the class becomes [nonsense] whatever it was; when
    both hold the class and the votes are unchanged. *)
Theorem classify_column_vote (adna : bool)
    (paln1 paln2 in_ref0 in_ass in_frag_v_ref in_frag_v_ass : ascii)
    (k : whatsit) (n : Z) :
  is_diagnostic paln1 paln2 = true →
  in_frag_v_ref = in_frag_v_ass →
  let mc := maybe_clean adna in_ass in_frag_v_ass in
  let md := maybe_dirt adna in_ref0 in_frag_v_ref in
  let r := classify_column adna paln1 paln2 in_ref0 in_ass
             in_frag_v_ref in_frag_v_ass (k, n) in
  r.2 = (if xorb mc md then n + 1 else n)
  ∧ (mc = false → md = false → r.1 = nonsense)
  ∧ (mc = true → md = true → r = (k, n)).
Proof.
  intros Hdiag <- mc md r. subst r mc md.
  unfold classify_column. rewrite Hdiag, Ascii.eqb_refl. cbn [negb].
  split; [apply vote_votes|]. split; intros -> ->.
  - by rewrite vote_neither.
  - apply vote_both.
Qed.

(** Reference [A], assembly [G], fragment [A] outside ancient-DNA mode:
    one vote. *)
Lemma classify_column_vote_witness :
  (classify_column false "A" "G" "A" "G" "A" "A" (unknown, 0)).2 = 1.
Proof.
  exact (proj1 (classify_column_vote false "A" "G" "A" "G" "A" "A"
                  unknown 0 eq_refl eq_refl)).
Defined.

(** ** The two consistency checks *)

(** C4, as the claim states it, fails: in ancient-DNA mode the check
    against the assembly folds the assembly base too.  Assembly [G],
    fragment [A]: [maybe_clean] holds although [G] and [A] do not
    match, and at a column with reference [A] the fragment gets no vote
    where the unfolded check would have called it [dirt]. *)
Lemma maybe_clean_folds_assembly :
  maybe_clean true "G" "A" = true
  ∧ match_ "G" "A" = false
  ∧ classify_column true "A" "G" "A" "G" "A" "A" (unknown, 0) = (unknown, 0)
  ∧ vote (match_ "G" "A") (maybe_dirt true "A" "A") (unknown, 0) = (dirt, 1).
Proof. by vm_compute. Qed.

(** C4, amended.  Both checks are the same function of a base and the
    fragment base: true when either symbol is a gap, otherwise the
    ambiguity-aware match of the base against the fragment base, the
    base being folded ([G] to [R], [C] to [Y]) exactly when ancient-DNA
    mode is active, for the assembly base in [maybe_clean] as for the
    reference base in [maybe_dirt]. *)
Theorem maybe_clean_maybe_dirt_same_rule (adna : bool) (x y : ascii) :
  maybe_clean adna x y
  = is_gap x || is_gap y || match_ (if adna then deaminated x else x) y
  ∧ maybe_dirt adna x y = maybe_clean adna x y
  ∧ maybe_clean false x y = is_gap x || is_gap y || match_ x y.
Proof. by destruct adna. Qed.

(** ** Back halves and the summary *)

Lemma finish_back (f : fragment) (t : tally) :
  segment f = "b"%char →
  finish f t = {| summary := summary t;
                  bfrags := <[id f := (klass f, votes f)]> (bfrags t) |}.
Proof. unfold finish. by intros ->. Qed.

Lemma same_but_back (f : fragment) (t : tally) :
  segment f = "b"%char → same_but (id f) (finish f t) t.
Proof.
  intros Hb. rewrite (finish_back _ _ Hb). split; [done|].
  intros j Hj. cbn. by rewrite lookup_insert_ne.
Qed.

Lemma same_but_finish (i : string) (f : fragment) (t1 t2 : tally) :
  (segment f = "f"%char → id f ≠ i) →
  same_but i t1 t2 → same_but i (finish f t1) (finish f t2).
Proof.
  intros Hid [Hs Hc]. unfold finish.
  destruct (Ascii.eqb (segment f) "b").
  { split; [done|]. intros j Hj. cbn.
    destruct (decide (j = id f)) as [->|Hne].
    - by rewrite !lookup_insert_eq.
    - rewrite !lookup_insert_ne by done. by apply Hc. }
  destruct (Ascii.eqb (segment f) "f") eqn:Hf.
  { apply Ascii.eqb_eq in Hf. unfold reconcile, count_up.
    rewrite (Hc _ (Hid Hf)), Hs. by split. }
  destruct (Ascii.eqb (segment f) "a"); [|by split].
  unfold count_up. rewrite Hs. by split.
Qed.

Lemma same_but_run (i : string) (fs : list fragment) :
  Forall (λ f, segment f = "f"%char → id f ≠ i) fs →
  ∀ t1 t2, same_but i t1 t2 → same_but i (run fs t1) (run fs t2).
Proof.
  induction 1 as [|f fs Hf _ IH]; intros t1 t2 H; [done|].
  cbn. apply IH. by apply same_but_finish.
Qed.

(** C10.  Finishing a fragment of role ['b'] leaves every count of the
    summary as it was and only stores the fragment's class and votes in
    the cache under its identifier.  So when no later fragment of role
    ['f'] carries that identifier, the run ends with the counts, and the
    interval computed from them, that it has without the back half. *)
Theorem back_fragment_frame (b : fragment) (fs1 fs2 : list fragment)
    (t : tally) :
  segment b = "b"%char →
  Forall (λ f, segment f = "f"%char → id f ≠ id b) fs2 →
  summary (finish b t) = summary t
  ∧ bfrags (finish b t) = <[id b := (klass b, votes b)]> (bfrags t)
  ∧ summary (run (fs1 ++ b :: fs2) t) = summary (run (fs1 ++ fs2) t)
  ∧ summary_interval (run (fs1 ++ b :: fs2) t)
    = summary_interval (run (fs1 ++ fs2) t).
Proof.
  intros Hb Hfs2. rewrite (finish_back _ _ Hb). do 2 (split; [done|]).
  assert (summary (run (fs1 ++ b :: fs2) t) = summary (run (fs1 ++ fs2) t))
    as Hsum.
  { unfold run. rewrite !fold_left_app. cbn [fold_left].
    apply (same_but_run (id b) fs2 Hfs2). by apply same_but_back. }
  split; [done|]. unfold summary_interval, count. by rewrite Hsum.
Qed.

(** A whole fragment, a back half, and the front half of another pair. *)
Lemma back_fragment_frame_witness :
  summary (run ([Fragment "r0" "a" clean 1]
                ++ Fragment "r1" "b" dirt 2 :: [Fragment "r2" "f" clean 1])
               tally0)
  = summary (run ([Fragment "r0" "a" clean 1] ++ [Fragment "r2" "f" clean 1])
                 tally0).
Proof.
  refine (proj1 (proj2 (proj2
    (back_fragment_frame (Fragment "r1" "b" dirt 2) [Fragment "r0" "a" clean 1]
       [Fragment "r2" "f" clean 1] tally0 eq_refl _)))).
  repeat constructor. discriminate.
Defined.

(** ** The interval of the summary *)

(** C7, as the claim states it, fails: with no [dirt] and no [clean]
    fragment the estimate is still [k / n], here zero divided by zero,
    and the number printed for it is a NaN. *)
Lemma interval_of_none_divides :
  count dirt tally0 + count clean tally0 = 0
  ∧ (to_double 0 / (to_double 0 + to_double 0))%float = nan
  ∧ (summary_interval tally0).1.2 = nan.
Proof. by vm_compute. Qed.

(** C7, amended.  Whenever the counts of [dirt] and [clean] are both
    zero, the summary goes through the same computation as for any
    other counts, and each of the three numbers it prints (lower bound,
    estimate, upper bound) is a NaN. *)
Theorem interval_of_none_is_nan (n_unknown n_conflict n_nonsense : Z)
    (cache : gmap string (whatsit * Z)) :
  summary_interval
    {| summary := [n_unknown; 0; 0; n_conflict; n_nonsense];
       bfrags := cache |}
  = (nan, nan, nan).
Proof. by vm_compute. Qed.



Lemma upto_spec (f : Z → bool) (fuel : nat) : ∀ i j,
  upto fuel i f = true → i ≤ j < i + Z.of_nat fuel → f j = true.
Proof.
  induction fuel as [|fuel IH]; intros i j H Hj; [lia|].
  cbn [upto] in H. apply andb_true_iff in H as [Hi H].
  destruct (decide (j = i)) as [->|]; [done|].
  apply (IH (i + 1)); [done|lia].
Qed.

Lemma grid_spec (n k c : Z) :
  grid n = true → 0 ≤ k ≤ n → 0 ≤ c ≤ n → in_range k c = true.
Proof.
  unfold grid. intros H Hk Hc.
  pose proof (upto_spec _ _ 0 k H) as H1. cbv beta in H1.
  apply (upto_spec (λ c, in_range k c) (Z.to_nat (n + 1)) 0 c); [apply H1|]; lia.
Qed.

(** The doubles of the summary, evaluated for each of the 1001 × 1001
    pairs of counts up to 1000. *)
Lemma grid_1000 : grid 1000 = true.
Proof. by vm_compute. Qed.



(** ** The aligner *)

Section Below.

Variable seq_a : list ascii.
Variable mode : myers_align_mode.
Variable seq_b : list ascii.

Lemma diagonals_hit (n : nat) : ∀ d k v d' k' x y v',
  diagonals seq_a mode seq_b n d k v = Some (Hit d' k' x y v') → d' = d.
Proof.
  induction n as [|n IH]; intros d k v d' k' x y v' H; [done|].
  cbn in H. destruct (snake _ _ _ _ _) as [[x0 y0]|]; [|done].
  cbn in H. destruct (boundary _ _ _ _ _); [by simplify_eq|by eapply IH].
Qed.

Lemma distances_hit (n : nat) : ∀ d v d' k' x y v',
  distances seq_a mode seq_b n d v = Some (Hit d' k' x y v') →
  d ≤ d' < d + Z.of_nat n.
Proof.
  induction n as [|n IH]; intros d v d' k' x y v' H; [done|].
  cbn in H.
  destruct (diagonals _ _ _ _ _ _ _) as [[d0 k0 x0 y0 v0|v0]|] eqn:Hd;
    [| |done]; cbn in H.
  - simplify_eq. apply diagonals_hit in Hd. lia.
  - apply IH in H. lia.
Qed.

Lemma traceback_ret v d k x y ia ib r :
  traceback seq_a seq_b v d k x y ia ib = Some r → ret r = d.
Proof.
  unfold traceback. intros H.
  destruct (backtrack _ _ _ _ _ _ _ _ _) as [[x' t3]|]; [|done].
  cbn in H. destruct (leading _ _ _ _ _); [|done]. cbn in H. by simplify_eq.
Qed.

(** X1.  Whatever the inputs and the initial memory, a call that returns
    either reports [UINT_MAX] or a distance strictly below [maxd] (and
    below [len_a + len_b]). *)
Lemma myers_diff_below_maxd maxd junk ia ib r :
  myers_diff seq_a mode seq_b maxd junk ia ib = Some r →
  ret r = UINT_MAX
  ∨ (0 ≤ ret r < maxd
     ∧ ret r < Z.of_nat (length seq_a) + Z.of_nat (length seq_b)).
Proof.
  unfold myers_diff. intros H.
  destruct (distances _ _ _ _ _ _) as [[d k x y v|v]|] eqn:Hd;
    [| |done]; cbn in H.
  - right. apply traceback_ret in H as ->. apply distances_hit in Hd.
    destruct (maxd >? _) eqn:E; lia.
  - left. by simplify_eq.
Qed.

End Below.

#[local] Open Scope char_scope.

(** C1: the search stops one distance short of [maxd].  ["A"] and
    ["C"] are one substitution apart, yet with [maxd = 1] the call
    returns [UINT_MAX], whatever the stack and the buffers held; with
    [maxd = 2] and a zeroed table it returns 1. *)
Theorem myers_diff_stops_before_maxd (junk : vtable) (ia ib : Z → ascii) :
  edit_distance ["A"] ["C"] = 1%nat
  ∧ ret <$> myers_diff ["A"] myers_align_globally ["C"] 1 junk ia ib
    = Some UINT_MAX
  ∧ ret <$> myers_diff ["A"] myers_align_globally ["C"] 2 (λ _ _, 0) ia ib
    = Some 1.
Proof. by vm_compute. Qed.

(** The same defect at the cap [len_a + len_b]: nothing is found for
    two empty sequences, which are at distance 0, for any [maxd] (the
    loop body is never entered; the table then has no column at all). *)
Lemma myers_diff_empty (maxd : Z) (junk : vtable) (ia ib : Z → ascii) :
  ret <$> myers_diff [] myers_align_globally [] maxd junk ia ib
  = Some UINT_MAX.
Proof.
  unfold myers_diff. change (Z.of_nat (length [])) with 0.
  change (0 + 0) with 0. destruct (maxd >? 0) eqn:Hmaxd; [done|].
  replace (Z.to_nat maxd) with 0%nat by lia. done.
Qed.

(** At [d = 1], [k = 0] the forward pass reads [v[1][0]], which nothing
    has written.  If the stack holds a 2 there, ["AC"] against ["GT"]
    (two substitutions apart) is reported at distance 1. *)
Lemma myers_diff_reads_stack (ia ib : Z → ascii) :
  edit_distance ["A"; "C"] ["G"; "T"] = 2%nat
  ∧ ret <$> myers_diff ["A"; "C"] myers_align_globally ["G"; "T"] 4
              (λ _ _, 2) ia ib = Some 1
  ∧ ret <$> myers_diff ["A"; "C"] myers_align_globally ["G"; "T"] 4
              (λ _ _, 0) ia ib = Some 2.
Proof. by vm_compute. Qed.

(** What the call leaves for two equal one-letter sequences: distance
    0, the stores into each buffer (latest first), and the first two
    characters of each buffer. *)
Lemma myers_diff_A_A (junk : vtable) (ia ib : Z → ascii) :
  ∃ r, myers_diff ["A"] myers_align_globally ["A"] 1000 junk ia ib = Some r
       ∧ ret r = 0
       ∧ stores (bt_a r) = [2; 1; 0; -1; 0; 1]
       ∧ stores (bt_b r) = [0; 1]
       ∧ cells (bt_a r) 0 = "A" ∧ cells (bt_a r) 1 = Ascii.zero
       ∧ cells (bt_b r) 0 = "A" ∧ cells (bt_b r) 1 = "A".
Proof. eexists. by vm_compute. Qed.

(** C2: the terminator of [seq_b]'s output is never stored (both
    terminating stores go to [bt_a]).  For ["A"] against ["A"] the call
    succeeds with distance 0 and [bt_a] reads back as ["A"], but
    [bt_b] holds ["AA"] followed by whatever the buffer held, so that
    removing the gaps from it does not give ["A"], for any capacity of
    two characters or more. *)
Theorem myers_diff_seq_b_unterminated (junk : vtable) (ia ib : Z → ascii)
    (cap : nat) :
  ∃ r, myers_diff ["A"] myers_align_globally ["A"] 1000 junk ia ib = Some r
       ∧ ret r = 0
       ∧ degap (returned (2 + cap) (bt_a r)) = ["A"]
       ∧ take 2 (returned (2 + cap) (bt_b r)) = ["A"; "A"]
       ∧ degap (returned (2 + cap) (bt_b r)) ≠ ["A"].
Proof.
  destruct (myers_diff_A_A junk ia ib)
    as (r & Hr & Hret & _ & _ & Ha0 & Ha1 & Hb0 & Hb1).
  exists r. do 2 (split; [done|]).
  unfold returned. cbn [Nat.add c_str]. rewrite Ha0, Hb0. cbn [Z.add Pos.add].
  change (0 + 1) with 1. rewrite Ha1, Hb1. cbn [Ascii.eqb Bool.eqb].
  by repeat split.
Qed.

(** C6: the same doubled store moves the cursor of [bt_a] two places
    down before the first symbol is written.  For ["A"] against ["A"]
    (distance 0, capacity 1 + 1 + 0 + 1 = 3) the symbol is stored at
    offset -1, in front of the buffer. *)
Theorem myers_diff_store_below_buffer (junk : vtable) (ia ib : Z → ascii) :
  ∃ r, myers_diff ["A"] myers_align_globally ["A"] 1000 junk ia ib = Some r
       ∧ ret r = 0
       ∧ -1 ∈ stores (bt_a r)
       ∧ within (1 + 1 + ret r + 1) (bt_a r) = false.
Proof.
  destruct (myers_diff_A_A junk ia ib) as (r & Hr & Hret & Hsa & _).
  exists r. do 2 (split; [done|]). unfold within. rewrite Hsa, Hret.
  split; [set_solver|done].
Qed.

(** ** Diagnostic positions *)

Lemma assembly_coordinate_0 aln2 : assembly_coordinate aln2 0 = 0.
Proof. unfold assembly_coordinate. by rewrite take_0. Qed.

Lemma assembly_coordinate_S c2 aln2 i :
  assembly_coordinate (c2 :: aln2) (S i)
  = (if is_gap c2 then 0 else 1) + assembly_coordinate aln2 i.
Proof.
  unfold assembly_coordinate. cbn [take].
  destruct (is_gap c2) eqn:Hg.
  - rewrite filter_cons_False; [done|]. by rewrite Hg.
  - rewrite filter_cons_True by done. cbn [length]. lia.
Qed.

Lemma assembly_coordinate_nonneg aln2 i : 0 ≤ assembly_coordinate aln2 i.
Proof. unfold assembly_coordinate. lia. Qed.

Lemma is_diagnostic_no_gap c1 c2 :
  is_diagnostic c1 c2 = true → is_gap c2 = false.
Proof.
  unfold is_diagnostic, is_gap. intros H.
  apply andb_true_iff in H as [_ H]. by apply negb_true_iff in H.
Qed.

(** The loop from counter [c], on a map whose keys are all below [c]:
    it keeps the map and adds every filtered column under the key
    [c] plus the column's assembly coordinate, as long as that key is
    below [t]. *)
Lemma mk_dp_loop_spec aln1 : ∀ aln2 tv c t (l : dp_list),
  c ≤ t →
  (∀ key v, l !! key = Some v → key < c) →
  ∀ key v,
    mk_dp_loop aln1 aln2 tv c t l !! key = Some v
    ↔ l !! key = Some v
      ∨ ∃ i, recorded_column aln1 aln2 tv i v
             ∧ key = c + assembly_coordinate aln2 i ∧ key < t.
Proof.
  induction aln1 as [|c1 aln1 IH]; intros aln2 tv c t l Hct Hl key v.
  { cbn. split; [by left|]. intros [H|(i & (H & _) & _)]; [done|].
    by rewrite lookup_nil in H. }
  destruct aln2 as [|c2 aln2].
  { cbn. split; [by left|]. intros [H|(i & (_ & H & _) & _)]; [done|].
    by rewrite lookup_nil in H. }
  cbn [mk_dp_loop]. destruct (c =? t)%Z eqn:Hc.
  { apply Z.eqb_eq in Hc. split; [by left|].
    intros [H|(i & _ & -> & Hlt)]; [done|].
    pose proof (assembly_coordinate_nonneg (c2 :: aln2) i). lia. }
  apply Z.eqb_neq in Hc.
  set (ok := is_diagnostic c1 c2 && (negb tv || is_transversion c1 c2)).
  set (l' := if ok then <[c:=(c1, c2)]> l else l).
  set (c' := if is_gap c2 then c else c + 1).
  assert (ok = true → is_gap c2 = false) as Hok.
  { subst ok. intros H. apply andb_true_iff in H as [H _].
    by eapply is_diagnostic_no_gap. }
  assert (c ≤ c' ≤ t) as Hc' by (subst c'; destruct (is_gap c2); lia).
  assert (∀ key v, l' !! key = Some v → key < c') as Hl'.
  { intros key0 v0. subst l' c'. destruct ok.
    - rewrite Hok by done. intros H.
      apply lookup_insert_Some in H as [[<- _]|[_ H]]; [lia|].
      apply Hl in H. lia.
    - intros H. apply Hl in H. lia. }
  rewrite (IH aln2 tv c' t l' (proj2 Hc') Hl' key v).
  split.
  - intros [H|(i & (H1 & H2 & H3 & H4) & -> & Hlt)].
    + subst l'. destruct ok eqn:Eok; [|by left].
      apply lookup_insert_Some in H as [[<- <-]|[_ H]]; [|by left].
      right. exists 0%nat. rewrite assembly_coordinate_0.
      split; [|lia]. subst ok. apply andb_true_iff in Eok as [E1 E2].
      repeat split; try done. cbn. intros ->. by rewrite orb_false_l in E2.
    + right. exists (S i). rewrite assembly_coordinate_S.
      split; [done|]. subst c'. destruct (is_gap c2); lia.
  - intros [H|(i & (H1 & H2 & H3 & H4) & -> & Hlt)].
    + left. subst l'. destruct ok; [|done].
      rewrite lookup_insert_ne; [done|]. apply Hl in H. lia.
    + destruct i as [|i].
      * left. cbn in H1, H2. simplify_eq. destruct v as [r a]. cbn in *.
        simplify_eq. rewrite assembly_coordinate_0, Z.add_0_r.
        subst l'. assert (ok = true) as ->.
        { subst ok. rewrite H3. destruct tv; [|done]. by rewrite H4. }
        by rewrite lookup_insert_eq.
      * right. exists i. rewrite assembly_coordinate_S in *.
        split; [done|]. subst c'. destruct (is_gap c2); lia.
Qed.

(** What [mk_dp_list] builds for [span_from ≤ span_to]: an entry under
    [key] exactly for the filtered columns with
    [key = span_from + coordinate] and [key < span_to], that is, for
    the coordinates in [0 .. span_to - span_from), each key raised by
    [span_from]. *)
Lemma mk_dp_list_keys aln1 aln2 tv span_from span_to key v :
  span_from ≤ span_to →
  mk_dp_list aln1 aln2 tv span_from span_to !! key = Some v
  ↔ ∃ i, recorded_column aln1 aln2 tv i v
         ∧ key = span_from + assembly_coordinate aln2 i ∧ key < span_to.
Proof.
  intros H. unfold mk_dp_list. rewrite mk_dp_loop_spec; [|done|].
  - split; [intros [?|?]; [by rewrite lookup_empty in *|done]|by right].
  - intros ??. by rewrite lookup_empty.
Qed.

(** X6.  With [span_from = 0] the keys are the assembly coordinates and
    the columns taken are those of coordinates in [0 .. span_to). *)
Lemma mk_dp_list_from_zero aln1 aln2 tv span_to key v :
  0 ≤ span_to →
  mk_dp_list aln1 aln2 tv 0 span_to !! key = Some v
  ↔ ∃ i, recorded_column aln1 aln2 tv i v
         ∧ key = assembly_coordinate aln2 i ∧ 0 ≤ key < span_to.
Proof.
  intros H. rewrite mk_dp_list_keys by done.
  split; intros (i & Hrec & -> & Hlt); exists i; (split; [done|]).
  - pose proof (assembly_coordinate_nonneg aln2 i). lia.
  - lia.
Qed.

(** C3: the counter starts at [span_from] while the walk starts at the
    first column, so with [span_from = 1] the keys are one more than
    the assembly coordinates and the columns taken are those of
    coordinates [0 .. span_to - span_from).  In ["CA"] / ["GA"] the
    column of coordinate 0 is recorded under key 1; in ["AC"] / ["AG"]
    the diagnostic column of coordinate 1 is not recorded. *)
Theorem mk_dp_list_counts_from_span_from :
  mk_dp_list ["C"; "A"] ["G"; "A"] false 1 2 = {[ 1 := ("C", "G") ]}
  ∧ assembly_coordinate ["G"; "A"] 0 = 0
  ∧ mk_dp_list ["A"; "C"] ["A"; "G"] false 1 2 = ∅
  ∧ assembly_coordinate ["A"; "G"] 1 = 1
  ∧ is_diagnostic "C" "G" = true.
Proof. by vm_compute. Qed.

(** C8: [is_transversion] only rejects the transition partner of its
    first argument.  Reference [A] against assembly [R] (both purines)
    passes and enters the index when only transversions are asked for; so does
    [C] against [U] (both pyrimidines). *)
Theorem is_transversion_accepts_same_class :
  is_transversion "A" "R" = true
  ∧ class_change "A" "R" = false
  ∧ mk_dp_list ["A"] ["R"] true 0 1 = {[ 0 := ("A", "R") ]}
  ∧ is_transversion "C" "U" = true
  ∧ class_change "C" "U" = false.
Proof. by vm_compute. Qed.

(** * Further properties of the code *)

#[local] Close Scope char_scope.

(** ** The earlier lemmas on examples *)

Example ex_index_built : mk_dp_list ex_ref ex_ass false 0 100 = ex_index.
Proof. by vm_compute. Qed.

Lemma myers_diff_below_maxd_witness :
  ∃ r, myers_diff ["A"]%char myers_align_globally ["C"]%char 2 clear_table zeros zeros
       = Some r
       ∧ (ret r = UINT_MAX
          ∨ (0 ≤ ret r < 2 ∧ ret r < Z.of_nat 1 + Z.of_nat 1)).
Proof.
  eexists. split; [reflexivity|].
  exact (myers_diff_below_maxd ["A"]%char myers_align_globally ["C"]%char 2 clear_table
           zeros zeros _ eq_refl).
Defined.

Lemma mk_dp_list_from_zero_witness :
  mk_dp_list ex_ref ex_ass false 0 100 !! 6 = Some ("G", "C")%char
  ↔ ∃ i, recorded_column ex_ref ex_ass false i ("G", "C")%char
         ∧ 6 = assembly_coordinate ex_ass i ∧ 0 ≤ 6 < 100.
Proof. apply (mk_dp_list_from_zero ex_ref ex_ass false 100 6). lia. Defined.

(** ** The aligner at distance 0 *)

Section Snake.
Variable seq_a : list ascii.
Variable mode : myers_align_mode.
Variable seq_b : list ascii.

Lemma char_at_lookup (s : list ascii) (i : nat) c :
  s !! i = Some c → char_at s (Z.of_nat i) = Some c.
Proof.
  intros H. unfold char_at. pose proof (lookup_lt_Some _ _ _ H).
  rewrite (proj2 (andb_true_iff _ _)) by (split; [apply Z.leb_le|apply Z.ltb_lt]; lia).
  by rewrite Nat2Z.id.
Qed.

Lemma snake_diagonal (n : nat) : ∀ x y x' y',
  snake seq_a seq_b n x y = Some (x', y') → x' - y' = x - y ∧ x ≤ x'.
Proof.
  induction n as [|n IH]; intros x y x' y' H; cbn in H.
  { simplify_eq. lia. }
  destruct (_ && _); [|simplify_eq; lia].
  destruct (char_at seq_b x) as [cb|]; [|done]. cbn in H.
  destruct (char_at seq_a y) as [ca|]; [|done]. cbn in H.
  destruct (match_ cb ca); [|simplify_eq; lia].
  apply IH in H. lia.
Qed.

Lemma snake_common (n : nat) : ∀ (i j : nat),
  (length seq_b - i ≤ n)%nat →
  snake seq_a seq_b n (Z.of_nat i) (Z.of_nat j)
  = Some (Z.of_nat (i + common (drop j seq_a) (drop i seq_b)),
          Z.of_nat (j + common (drop j seq_a) (drop i seq_b))).
Proof.
  induction n as [|n IH]; intros i j Hn; cbn [snake].
  { rewrite (drop_ge seq_b) by lia. destruct (drop j seq_a); cbn; by rewrite !Nat.add_0_r. }
  destruct (Z.of_nat i <? Z.of_nat (length seq_b)) eqn:Hi; cbn [andb].
  2:{ apply Z.ltb_ge in Hi. rewrite (drop_ge seq_b) by lia.
      destruct (drop j seq_a); cbn; by rewrite !Nat.add_0_r. }
  destruct (Z.of_nat j <? Z.of_nat (length seq_a)) eqn:Hj.
  2:{ apply Z.ltb_ge in Hj. rewrite (drop_ge seq_a) by lia.
      cbn; by rewrite !Nat.add_0_r. }
  apply Z.ltb_lt in Hi, Hj.
  destruct (lookup_lt_is_Some_2 seq_b i) as [cb Hcb]; [lia|].
  destruct (lookup_lt_is_Some_2 seq_a j) as [ca Hca]; [lia|].
  rewrite (char_at_lookup _ _ _ Hcb), (char_at_lookup _ _ _ Hca). cbn.
  rewrite (drop_S _ _ _ Hcb), (drop_S _ _ _ Hca). cbn [common].
  destruct (match_ cb ca).
  - replace (Z.of_nat i + 1) with (Z.of_nat (S i)) by lia.
    replace (Z.of_nat j + 1) with (Z.of_nat (S j)) by lia.
    rewrite IH by lia. do 3 f_equal; lia.
  - by rewrite !Nat.add_0_r.
Qed.
End Snake.

Lemma common_le a : ∀ b, (common a b ≤ length a)%nat ∧ (common a b ≤ length b)%nat.
Proof.
  induction a as [|ca a IH]; intros [|cb b]; cbn; try lia.
  destruct (match_ cb ca); cbn; [|lia]. specialize (IH b). lia.
Qed.

Lemma common_full a : ∀ b,
  common a b = length a ∧ common a b = length b
  ↔ Forall2 (λ ca cb, match_ cb ca = true) a b.
Proof.
  induction a as [|ca a IH]; intros [|cb b]; cbn.
  - split; [constructor|done].
  - split; [lia|inversion 1].
  - split; [lia|inversion 1].
  - destruct (match_ cb ca) eqn:Hm.
    + rewrite Forall2_cons, <- IH. split; [intros [??]; split; [done|lia]|lia].
    + split; [lia|]. inversion 1; congruence.
Qed.

Section ScanZero.
Variable seq_a : list ascii.
Variable mode : myers_align_mode.
Variable seq_b : list ascii.

Lemma backtrack_0 n v k x y t :
  backtrack seq_a seq_b n v 0 k x y t = Some (x, t).
Proof. by destruct n. Qed.

(** The scan of distance 0: one diagonal, reached as far as the
    sequences match from their heads. *)
Lemma diagonals_0 junk :
  diagonals seq_a mode seq_b 1 0 0 junk
  = let c := Z.of_nat (common seq_a seq_b) in
    Some (if boundary seq_a mode seq_b c c
          then Hit 0 0 c c (vset junk 0 0 c) else Miss (vset junk 0 0 c)).
Proof.
  cbn [diagonals]. unfold reach. cbn [Z.eqb].
  replace (Z.of_nat (length seq_b) - 0) with (Z.of_nat (length seq_b)) by lia.
  change (0 - 0) with (Z.of_nat 0). change 0 with (Z.of_nat 0) at 2.
  rewrite Nat2Z.id, (snake_common seq_a seq_b _ 0 0) by lia.
  cbn. by destruct (boundary _ _ _ _ _).
Qed.

Lemma distances_0 n junk :
  distances seq_a mode seq_b (S n) 0 junk
  = let c := Z.of_nat (common seq_a seq_b) in
    if boundary seq_a mode seq_b c c
    then Some (Hit 0 0 c c (vset junk 0 0 c))
    else distances seq_a mode seq_b n 1 (vset junk 0 0 c).
Proof.
  cbn [distances].
  assert (Myers.max (- 0) (- Z.of_nat (length seq_a)) = 0) as ->.
  { unfold Myers.max. destruct (Z.ltb_spec (- 0) (- Z.of_nat (length seq_a))); lia. }
  assert (Myers.min 0 (Z.of_nat (length seq_b)) = 0) as ->.
  { unfold Myers.min. destruct (Z.ltb_spec 0 (Z.of_nat (length seq_b))); lia. }
  change (Z.to_nat (0 - 0 + 1)) with 1%nat. rewrite diagonals_0. cbn.
  by destruct (boundary _ _ _ _ _).
Qed.
End ScanZero.

Section Leading.
Variable seq_a : list ascii.
Variable mode : myers_align_mode.
Variable seq_b : list ascii.

(** [leading] on its own: [n] symbols of each sequence are stored just
    below the two cursors, lowest offset last. *)
Lemma leading_spec (n : nat) : ∀ t,
  (n ≤ length seq_a)%nat → (n ≤ length seq_b)%nat →
  ∃ t', leading seq_a seq_b n (Z.of_nat n) t = Some t'
    ∧ out_a t' = out_a t - Z.of_nat n
    ∧ out_b t' = out_b t - Z.of_nat n
    ∧ (∀ i, cells (buf_a t') i =
            if (out_a t - Z.of_nat n <=? i) && (i <? out_a t)
            then default Ascii.zero
                   (seq_a !! Z.to_nat (i - (out_a t - Z.of_nat n)))
            else cells (buf_a t) i)
    ∧ (∀ i, cells (buf_b t') i =
            if (out_b t - Z.of_nat n <=? i) && (i <? out_b t)
            then default Ascii.zero
                   (seq_b !! Z.to_nat (i - (out_b t - Z.of_nat n)))
            else cells (buf_b t) i)
    ∧ stores (buf_a t')
      = map (λ j, out_a t - Z.of_nat n + Z.of_nat j) (seq 0 n)
        ++ stores (buf_a t).
Proof.
  induction n as [|n IH]; intros t Ha Hb.
  { exists t. cbn. repeat split; try lia.
    - intros i. destruct (Z.leb_spec (out_a t - Z.of_nat 0) i);
        destruct (Z.ltb_spec i (out_a t)); cbn; try done; lia.
    - intros i. destruct (Z.leb_spec (out_b t - Z.of_nat 0) i);
        destruct (Z.ltb_spec i (out_b t)); cbn; try done; lia. }
  cbn [leading].
  destruct (Z.gtb_spec (Z.of_nat (S n)) 0) as [_|?]; [|lia].
  replace (Z.of_nat (S n) - 1) with (Z.of_nat n) by lia.
  destruct (lookup_lt_is_Some_2 seq_b n) as [cb Hcb]; [lia|].
  destruct (lookup_lt_is_Some_2 seq_a n) as [ca Hca]; [lia|].
  rewrite (char_at_lookup _ _ _ Hcb), (char_at_lookup _ _ _ Hca).
  cbn [mbind option_bind].
  destruct (IH (push_a ca (push_b cb t))) as (t' & -> & Hoa & Hob & Hca' & Hcb' & Hst);
    [lia|lia|].
  exists t'. cbn in Hoa, Hob, Hca', Hcb', Hst.
  split; [done|]. split; [lia|]. split; [lia|]. repeat split.
  - intros i. rewrite Hca'.
    replace (out_a t - 1 - Z.of_nat n) with (out_a t - Z.of_nat (S n)) by lia.
    destruct (Z.leb_spec (out_a t - Z.of_nat (S n)) i);
      destruct (Z.ltb_spec i (out_a t - 1));
      destruct (Z.ltb_spec i (out_a t));
      destruct (Z.eqb_spec i (out_a t - 1)); cbn; try lia; try done.
    subst i. replace (Z.to_nat _) with n by lia. by rewrite Hca.
  - intros i. rewrite Hcb'.
    replace (out_b t - 1 - Z.of_nat n) with (out_b t - Z.of_nat (S n)) by lia.
    destruct (Z.leb_spec (out_b t - Z.of_nat (S n)) i);
      destruct (Z.ltb_spec i (out_b t - 1));
      destruct (Z.ltb_spec i (out_b t));
      destruct (Z.eqb_spec i (out_b t - 1)); cbn; try lia; try done.
    subst i. replace (Z.to_nat _) with n by lia. by rewrite Hcb.
  - rewrite Hst, seq_S, map_app, <- app_assoc. cbn.
    f_equal; [apply map_ext; intros; lia|]. f_equal. lia.
Qed.

End Leading.

Ltac zcmp :=
  repeat match goal with
  | |- context [?a <=? ?b] => destruct (Z.leb_spec a b)
  | |- context [?a <? ?b] => destruct (Z.ltb_spec a b)
  | |- context [?a =? ?b] => destruct (Z.eqb_spec a b)
  end.

Section TraceZero.
Variable seq_a : list ascii.
Variable seq_b : list ascii.

(** The traceback entered at distance 0 with both sequences consumed. *)
Lemma traceback_0 (n : nat) v ia ib :
  length seq_a = n → length seq_b = n →
  ∃ r, traceback seq_a seq_b v 0 0 (Z.of_nat n) (Z.of_nat n) ia ib = Some r
    ∧ ret r = 0
    ∧ (∀ i c, seq_a !! i = Some c → cells (bt_a r) (Z.of_nat i) = c)
    ∧ cells (bt_a r) (Z.of_nat n) = Ascii.zero
    ∧ (∀ i c, seq_b !! i = Some c → cells (bt_b r) (Z.of_nat i) = c)
    ∧ (∀ c, seq_b !! (n - 1)%nat = Some c → cells (bt_b r) (Z.of_nat n) = c)
    ∧ (n ≠ 0%nat → -1 ∈ stores (bt_a r)).
Proof.
  intros Hla Hlb. unfold traceback. rewrite backtrack_0.
  cbn [mbind option_bind]. rewrite Nat2Z.id.
  match goal with |- context [leading _ _ _ _ ?t] => set (t2 := t) end.
  destruct (leading_spec seq_a seq_b n t2) as (t4 & -> & Hoa & Hob & Hca & Hcb & Hst);
    [lia|lia|].
  cbn [mbind option_bind]. eexists. split; [done|].
  cbn [ret bt_a bt_b memmove0 cells stores].
  subst t2. cbn in Hoa, Hob, Hca, Hcb, Hst. rewrite Hla in *. rewrite Hlb in *.
  split; [done|]. repeat split.
  - intros i c Hi. pose proof (lookup_lt_Some _ _ _ Hi).
    rewrite Hoa. repeat rewrite Hca. zcmp; cbn; try lia;
      (replace (Z.to_nat _) with i by lia); by rewrite Hi.
  - rewrite Hoa. repeat rewrite Hca. zcmp; cbn; try lia; done.
  - intros i c Hi. pose proof (lookup_lt_Some _ _ _ Hi).
    rewrite Hob. repeat rewrite Hcb. zcmp; cbn; try lia;
      (replace (Z.to_nat _) with i by lia); by rewrite Hi.
  - intros c Hc. pose proof (lookup_lt_Some _ _ _ Hc).
    rewrite Hob. repeat rewrite Hcb. zcmp; cbn; try lia;
      (replace (Z.to_nat _) with (n - 1)%nat by lia); by rewrite Hc.
  - intros Hn. rewrite Hst. apply elem_of_app. right.
    apply elem_of_app. left. apply list_elem_of_fmap. exists 0%nat.
    split; [lia|]. apply elem_of_seq. lia.
Qed.

End TraceZero.

Lemma c_str_prefix (m : Z → ascii) (s : list ascii) : ∀ (cap : nat) (i0 : Z),
  (length s ≤ cap)%nat →
  Forall (λ c, c ≠ Ascii.zero) s →
  (∀ j c, s !! j = Some c → m (i0 + Z.of_nat j) = c) →
  c_str cap m i0 = s ++ c_str (cap - length s) m (i0 + Z.of_nat (length s)).
Proof.
  induction s as [|c s IH]; intros cap i0 Hcap Hnz Hm.
  { cbn. by rewrite Nat.sub_0_r, Z.add_0_r. }
  destruct cap as [|cap]; [cbn in Hcap; lia|].
  apply Forall_cons in Hnz as [Hc Hnz]. cbn [c_str].
  pose proof (Hm 0%nat c eq_refl) as H0. rewrite Z.add_0_r in H0. rewrite H0.
  destruct (Ascii.eqb_spec c Ascii.zero) as [?|_]; [done|].
  cbn [app length Nat.sub]. f_equal.
  rewrite (IH cap (i0 + 1)); [|cbn in Hcap; lia|done|].
  - do 2 f_equal. lia.
  - intros j c' Hj. rewrite <- (Hm (S j) c' Hj). f_equal. lia.
Qed.

Section AtZero.
Variable seq_a : list ascii.
Variable seq_b : list ascii.

Lemma boundary_global x y :
  boundary seq_a myers_align_globally seq_b x y
  = (y =? Z.of_nat (length seq_a)) && (x =? Z.of_nat (length seq_b)).
Proof. done. Qed.

(** The whole call when the two sequences match position by position. *)
Lemma myers_diff_at_0 maxd junk ia ib :
  matching seq_a seq_b → seq_a ≠ [] → 0 < maxd →
  ∃ r, myers_diff seq_a myers_align_globally seq_b maxd junk ia ib = Some r
    ∧ ret r = 0
    ∧ (∀ i c, seq_a !! i = Some c → cells (bt_a r) (Z.of_nat i) = c)
    ∧ cells (bt_a r) (Z.of_nat (length seq_a)) = Ascii.zero
    ∧ (∀ i c, seq_b !! i = Some c → cells (bt_b r) (Z.of_nat i) = c)
    ∧ (∀ c, last seq_b = Some c
            → cells (bt_b r) (Z.of_nat (length seq_b)) = c)
    ∧ -1 ∈ stores (bt_a r).
Proof.
  intros Hm Hne Hmaxd. pose proof (Forall2_length _ _ _ Hm) as Hlen.
  apply common_full in Hm as [Hca Hcb].
  assert (length seq_a ≠ 0%nat) as Hn by by destruct seq_a.
  unfold myers_diff.
  set (maxd' := if maxd >? _ then _ else maxd).
  assert (0 < maxd') as Hmaxd'.
  { subst maxd'. destruct (Z.gtb_spec maxd (Z.of_nat (length seq_a) + Z.of_nat (length seq_b))); lia. }
  destruct (Z.to_nat maxd') as [|m] eqn:Hm'; [lia|].
  rewrite distances_0. cbn zeta.
  rewrite boundary_global, Hca, <- Hlen, !Z.eqb_refl.
  cbn [andb mbind option_bind].
  destruct (traceback_0 seq_a seq_b (length seq_a) (vset junk 0 0 (Z.of_nat (length seq_a))) ia ib)
    as (r & -> & Hret & Ha & Haz & Hb & Hbl & Hst); [done|done|].
  exists r. repeat split; try done.
  - intros c Hc. apply Hbl.
    rewrite last_lookup in Hc. rewrite <- Hc, Hlen. f_equal. lia.
  - by apply Hst.
Qed.

End AtZero.

Lemma common_right a : ∀ b,
  common a b = length b ↔ matching (take (length b) a) b.
Proof.
  unfold matching.
  induction a as [|ca a IH]; intros [|cb b]; cbn.
  - split; [constructor|done].
  - split; [done|inversion 1].
  - split; [constructor|done].
  - destruct (match_ cb ca) eqn:Hm.
    + rewrite Forall2_cons, <- IH. split; [intros [=]; by split|intros [_ ?]; lia].
    + split; [done|]. inversion 1; congruence.
Qed.

Lemma common_left a : ∀ b,
  common a b = length a ↔ matching a (take (length a) b).
Proof.
  unfold matching.
  induction a as [|ca a IH]; intros [|cb b]; cbn.
  - split; [constructor|done].
  - split; [constructor|done].
  - split; [done|inversion 1].
  - destruct (match_ cb ca) eqn:Hm.
    + rewrite Forall2_cons, <- IH. split; [intros [=]; by split|intros [_ ?]; lia].
    + split; [done|]. inversion 1; congruence.
Qed.

Section Boundary.
Variable seq_a : list ascii.
Variable mode : myers_align_mode.
Variable seq_b : list ascii.

Lemma boundary_common :
  let c := Z.of_nat (common seq_a seq_b) in
  boundary seq_a mode seq_b c c = true ↔ matches_at_0 mode seq_a seq_b.
Proof.
  cbn zeta. unfold boundary. rewrite andb_true_iff, !orb_true_iff, !Z.eqb_eq.
  rewrite !Nat2Z.inj_iff.
  pose proof (common_le seq_a seq_b) as [Hla Hlb].
  destruct mode; cbn.
  - rewrite <- common_full. split; [intros [[?|?] [?|?]]; done|intros [??]; by split; right].
  - rewrite <- common_right. split; [intros [_ [?|?]]; done|intros ?; split; [by left|by right]].
  - rewrite <- common_left. split; [intros [[?|?] _]; done|intros ?; split; [by right|by left]].
Qed.

Lemma traceback_0_some (n : nat) v ia ib :
  (n ≤ length seq_a)%nat → (n ≤ length seq_b)%nat →
  ∃ r, traceback seq_a seq_b v 0 0 (Z.of_nat n) (Z.of_nat n) ia ib = Some r
       ∧ ret r = 0.
Proof.
  intros Ha Hb. unfold traceback. rewrite backtrack_0.
  cbn [mbind option_bind]. rewrite Nat2Z.id.
  match goal with |- context [leading _ _ _ _ ?t] => set (t2 := t) end.
  destruct (leading_spec seq_a seq_b n t2) as (t4 & -> & _); [lia|lia|].
  cbn [mbind option_bind]. by eexists.
Qed.

End Boundary.

(** X2.  Distance 0 is returned exactly when the search may run at all
    ([maxd] positive, the sequences not both empty) and the sequences
    match from their heads up to the end the mode asks for; this does
    not depend on the initial memory. *)
Theorem myers_diff_zero_iff seq_a mode seq_b maxd junk ia ib :
  (∃ r, myers_diff seq_a mode seq_b maxd junk ia ib = Some r ∧ ret r = 0)
  ↔ 0 < maxd ∧ (seq_a ≠ [] ∨ seq_b ≠ []) ∧ matches_at_0 mode seq_a seq_b.
Proof.
  unfold myers_diff.
  set (maxd' := if maxd >? _ then _ else maxd).
  assert (0 < maxd' ↔ 0 < maxd ∧ (seq_a ≠ [] ∨ seq_b ≠ [])) as Hmaxd.
  { subst maxd'. destruct (Z.gtb_spec maxd (Z.of_nat (length seq_a) + Z.of_nat (length seq_b)));
      destruct seq_a, seq_b; cbn [length] in *; split; try lia;
      try (intros ?; split; [lia|]; by auto); intros [? [?|?]]; done || lia. }
  rewrite <- boundary_common. cbn zeta.
  match goal with |- _ ↔ _ ∧ _ ∧ ?B =>
    transitivity (0 < maxd' ∧ B); [|rewrite Hmaxd; tauto] end.
  clear Hmaxd.
  pose proof (common_le seq_a seq_b) as [Hla Hlb].
  destruct (Z.to_nat maxd') as [|m] eqn:Hm.
  { cbn. split; [intros (r & [= <-] & ?); done|lia]. }
  rewrite distances_0. cbn zeta. destruct (boundary _ _ _ _ _) eqn:Hb.
  - cbn [mbind option_bind]. split; [intros _; split; [lia|done]|intros _].
    by apply traceback_0_some.
  - split; [|intros [_ ?]; done]. intros (r & Hr & Hret).
    destruct (distances _ _ _ _ _ _) as [[d k x y v|v]|] eqn:Hd; [| |done];
      cbn in Hr.
    + apply traceback_ret in Hr. apply distances_hit in Hd. lia.
    + by simplify_eq.
Qed.

Lemma match_nonzero ca cb :
  match_ cb ca = true → ca ≠ Ascii.zero ∧ cb ≠ Ascii.zero.
Proof.
  unfold match_. intros H. split; intros ->; cbn in H.
  - by rewrite Z.land_0_r in H.
  - done.
Qed.

Lemma matching_nonzero seq_a seq_b :
  matching seq_a seq_b →
  Forall (λ c, c ≠ Ascii.zero) seq_a ∧ Forall (λ c, c ≠ Ascii.zero) seq_b.
Proof.
  induction 1 as [|ca cb a b Hm _ [IHa IHb]]; [done|].
  apply match_nonzero in Hm as [??]. split; by constructor.
Qed.

(** X3.  Sequences that match symbol by symbol: the call returns 0 and
    [bt_a] reads back as [seq_a]; [bt_b] holds [seq_b] followed, in
    place of a terminator, by the last symbol of [seq_b] once more. *)
Theorem myers_diff_matching_read_back seq_a seq_b maxd junk ia ib
    (cap : nat) (c : ascii) :
  matching seq_a seq_b → last seq_b = Some c → 0 < maxd →
  (length seq_a < cap)%nat →
  ∃ r, myers_diff seq_a myers_align_globally seq_b maxd junk ia ib = Some r
    ∧ ret r = 0
    ∧ returned cap (bt_a r) = seq_a
    ∧ take (S (length seq_b)) (returned cap (bt_b r)) = seq_b ++ [c].
Proof.
  intros Hm Hlast Hmaxd Hcap.
  pose proof (Forall2_length _ _ _ Hm) as Hlen.
  assert (seq_a ≠ []) as Hne.
  { intros ->. destruct seq_b; [done|]. by apply Forall2_length in Hm. }
  destruct (matching_nonzero _ _ Hm) as [Hza Hzb].
  destruct (myers_diff_at_0 seq_a seq_b maxd junk ia ib Hm Hne Hmaxd)
    as (r & Hr & Hret & Ha & Haz & Hb & Hbl & _).
  exists r. do 2 (split; [done|]). unfold returned. split.
  - rewrite (c_str_prefix _ seq_a) by (done || lia).
    destruct (cap - length seq_a)%nat as [|cap'] eqn:E; [lia|].
    cbn [c_str]. rewrite Z.add_0_l, Haz. cbn. by rewrite app_nil_r.
  - rewrite (c_str_prefix _ seq_b) by (done || lia).
    destruct (cap - length seq_b)%nat as [|cap'] eqn:E; [lia|].
    cbn [c_str]. rewrite Z.add_0_l, (Hbl c Hlast).
    assert (c ≠ Ascii.zero) as Hc.
    { rewrite Forall_forall in Hzb. apply Hzb.
      rewrite last_lookup in Hlast. by eapply list_elem_of_lookup_2. }
    destruct (Ascii.eqb_spec c Ascii.zero) as [?|_]; [done|].
    rewrite take_app_ge by lia.
    by replace (S (length seq_b) - length seq_b)%nat with 1%nat by lia.
Qed.

Lemma myers_diff_matching_read_back_witness :
  ∃ r, myers_diff ["A"; "C"]%char myers_align_globally ["A"; "C"]%char 5 clear_table
         zeros zeros = Some r
       ∧ ret r = 0
       ∧ returned 3 (bt_a r) = ["A"; "C"]%char
       ∧ take 3 (returned 3 (bt_b r)) = ["A"; "C"; "C"]%char.
Proof.
  apply (myers_diff_matching_read_back ["A"; "C"]%char ["A"; "C"]%char 5 clear_table
           zeros zeros 3 "C"%char).
  - by repeat constructor.
  - reflexivity.
  - lia.
  - cbn. lia.
Defined.

Section Diagonal.
Variable seq_a : list ascii.
Variable mode : myers_align_mode.
Variable seq_b : list ascii.

Lemma diagonals_hit_k (n : nat) : ∀ d k v d' k' x y v',
  diagonals seq_a mode seq_b n d k v = Some (Hit d' k' x y v') →
  k ≤ k' < k + Z.of_nat n ∧ y = x - k'
  ∧ boundary seq_a mode seq_b x y = true.
Proof.
  induction n as [|n IH]; intros d k v d' k' x y v' H; [done|].
  cbn [diagonals] in H. cbn zeta in H.
  set (r0 := reach v d k) in *. clearbody r0.
  destruct (snake _ _ _ _ _) as [[x0 y0]|] eqn:Hs; [|done].
  cbn [mbind option_bind] in H. apply snake_diagonal in Hs as [Hs _].
  destruct (boundary _ _ _ _ _) eqn:Hb.
  - simplify_eq. split; [lia|]. split; [lia|done].
  - apply IH in H as (? & ? & ?). split; [lia|done].
Qed.

Lemma distances_hit_k (n : nat) : ∀ d v d' k' x y v',
  0 ≤ d →
  distances seq_a mode seq_b n d v = Some (Hit d' k' x y v') →
  - d' ≤ k' ≤ d' ∧ y = x - k' ∧ boundary seq_a mode seq_b x y = true.
Proof.
  induction n as [|n IH]; intros d v d' k' x y v' Hd0 H; [done|].
  cbn in H.
  destruct (diagonals _ _ _ _ _ _ _) as [[d0 k0 x0 y0 v0|v0]|] eqn:Hd;
    [| |done]; cbn in H.
  - simplify_eq. pose proof (diagonals_hit _ _ _ _ _ _ _ _ _ _ _ _ Hd) as ->.
    apply diagonals_hit_k in Hd as (Hk & Hy & Hb).
    split; [|done]. revert Hk. unfold Myers.max, Myers.min.
    destruct (Z.ltb_spec (- d) (- Z.of_nat (length seq_a)));
      destruct (Z.ltb_spec d (Z.of_nat (length seq_b))); lia.
  - apply IH in H; [done|lia].
Qed.

End Diagonal.

(** ** Bounds on what the aligner returns *)

(** X4.  A successful global alignment never reports less than the
    difference of the two lengths, whatever the table held at first. *)
Theorem myers_diff_length_gap seq_a seq_b maxd junk ia ib r :
  myers_diff seq_a myers_align_globally seq_b maxd junk ia ib = Some r →
  ret r ≠ UINT_MAX →
  Z.abs (Z.of_nat (length seq_a) - Z.of_nat (length seq_b)) ≤ ret r.
Proof.
  unfold myers_diff. intros H Hret.
  destruct (distances _ _ _ _ _ _) as [[d k x y v|v]|] eqn:Hd;
    [| |done]; cbn in H; [|by simplify_eq].
  apply traceback_ret in H as ->.
  apply distances_hit_k in Hd as (Hk & Hy & Hb); [|done].
  rewrite boundary_global in Hb. apply andb_true_iff in Hb as [Hb1 Hb2].
  apply Z.eqb_eq in Hb1, Hb2. lia.
Qed.

Lemma myers_diff_length_gap_witness :
  ∃ r, myers_diff ["A"; "C"; "G"]%char myers_align_globally ["A"]%char 5 clear_table
         zeros zeros = Some r
       ∧ Z.abs (Z.of_nat 3 - Z.of_nat 1) ≤ ret r.
Proof.
  eexists. split; [reflexivity|].
  apply (myers_diff_length_gap ["A"; "C"; "G"]%char ["A"]%char 5 clear_table zeros zeros _
           eq_refl).
  by vm_compute.
Defined.

(** X5.  When the call gives up, it has not touched the two output
    buffers. *)
Theorem myers_diff_overflow_keeps_buffers seq_a mode seq_b maxd junk ia ib r :
  myers_diff seq_a mode seq_b maxd junk ia ib = Some r →
  ret r = UINT_MAX →
  Z.of_nat (length seq_a) + Z.of_nat (length seq_b) ≤ UINT_MAX →
  bt_a r = Buffer ia [] ∧ bt_b r = Buffer ib [].
Proof.
  unfold myers_diff. intros H Hret Hlen.
  destruct (distances _ _ _ _ _ _) as [[d k x y v|v]|] eqn:Hd;
    [| |done]; cbn in H; [|by simplify_eq].
  apply traceback_ret in H. apply distances_hit in Hd.
  destruct (maxd >? _) eqn:E; lia.
Qed.

Lemma myers_diff_overflow_keeps_buffers_witness :
  ∃ r, myers_diff ["A"]%char myers_align_globally ["C"]%char 1 clear_table zeros zeros
       = Some r
       ∧ bt_a r = Buffer zeros [] ∧ bt_b r = Buffer zeros [].
Proof.
  eexists. split; [reflexivity|].
  apply (myers_diff_overflow_keeps_buffers ["A"]%char myers_align_globally ["C"]%char 1
           clear_table zeros zeros _ eq_refl); [reflexivity|by vm_compute].
Defined.

(** ** Classes, votes and the walk *)

(** X17.  [merge_whatsit] is commutative, associative and idempotent,
    [unknown] is its neutral element and [nonsense] absorbs every
    class: pairs can be merged in any order. *)
Theorem merge_whatsit_laws (a b c : whatsit) :
  merge_whatsit a b = merge_whatsit b a
  ∧ merge_whatsit a (merge_whatsit b c) = merge_whatsit (merge_whatsit a b) c
  ∧ merge_whatsit a a = a
  ∧ merge_whatsit unknown a = a
  ∧ merge_whatsit nonsense a = nonsense.
Proof. by destruct a, b, c. Qed.

(** X18.  The update at one diagnostic position is [merge_whatsit] of
    the current class with what the position says on its own, and the
    vote is counted exactly when that is [clean] or [dirt]. *)
Theorem vote_merges_evidence (mc md : bool) (k : whatsit) (n : Z) :
  vote mc md (k, n)
  = (merge_whatsit k (evidence mc md),
     if whatsit_eqb (evidence mc md) clean || whatsit_eqb (evidence mc md) dirt
     then n + 1 else n).
Proof. by destruct mc, md, k. Qed.

Lemma vote_fits mc md kv : fits kv → fits (vote mc md kv).
Proof.
  destruct kv as [k n]. unfold fits. destruct mc, md, k; simpl; lia.
Qed.

Lemma classify_column_fits adna p1 p2 r a fr fa kv :
  fits kv → fits (classify_column adna p1 p2 r a fr fa kv).
Proof.
  unfold classify_column. intros H.
  destruct (is_diagnostic p1 p2); [|done].
  destruct (negb _); [done|]. by apply vote_fits.
Qed.

Lemma vote_rank mc md k n :
  rank k ≤ rank (vote mc md (k, n)).1 ∧ n ≤ (vote mc md (k, n)).2 ≤ n + 1.
Proof. destruct mc, md, k; simpl; lia. Qed.

Lemma diagnostic_columns_cons c1 c2 a1 a2 :
  diagnostic_columns (c1 :: a1) (c2 :: a2)
  = (if is_diagnostic c1 c2 then 1 else 0) + diagnostic_columns a1 a2.
Proof.
  unfold diagnostic_columns. cbn [zip zip_with].
  destruct (is_diagnostic c1 c2) eqn:E.
  - rewrite filter_cons_True by done. cbn [length]. lia.
  - rewrite filter_cons_False; [done|]. cbn. by rewrite E.
Qed.

Lemma diagnostic_columns_nonneg a1 a2 : 0 ≤ diagnostic_columns a1 a2.
Proof. unfold diagnostic_columns. lia. Qed.

Lemma classify_column_step adna p1 p2 r a fr fa k n :
  let kv' := classify_column adna p1 p2 r a fr fa (k, n) in
  rank k ≤ rank kv'.1
  ∧ n ≤ kv'.2 ≤ n + (if is_diagnostic p1 p2 then 1 else 0)
  ∧ (is_diagnostic p1 p2 = false → kv' = (k, n)).
Proof.
  cbn zeta. unfold classify_column. destruct (is_diagnostic p1 p2).
  - destruct (negb _); [cbn; lia|].
    pose proof (vote_rank (maybe_clean adna a fa) (maybe_dirt adna r fr) k n).
    split; [lia|]. split; [lia|done].
  - cbn. split; [lia|]. split; [lia|done].
Qed.

(** One pass through the body of the walk, for the inductions below:
    either the walk stops with [kv], or it goes on from the next column
    with the value [classify_column] gives. *)
Lemma walk_cons adna c1 paln1 c2 paln2 ass_pos end_ in_ref fvr in_ass fva kv kv' :
  walk adna (c1 :: paln1) (c2 :: paln2) ass_pos end_ in_ref fvr in_ass fva kv
  = Some kv' →
  kv' = kv
  ∨ ∃ r a fr fa ass_pos' in_ref' fvr' in_ass' fva',
      walk adna paln1 paln2 ass_pos' end_ in_ref' fvr' in_ass' fva'
           (classify_column adna c1 c2 r a fr fa kv) = Some kv'.
Proof.
  intros H. cbn [walk] in H.
  destruct (ass_pos =? end_ + 1); [left; by simplify_eq|].
  destruct in_ref as [|r0 in_ref]; [left; by simplify_eq|].
  destruct (deref in_ass) as [a|]; [|done]. cbn [mbind option_bind] in H.
  destruct (Ascii.eqb a Ascii.zero); [left; by simplify_eq|].
  destruct (deref fva) as [fa|]; [|done]. cbn [mbind option_bind] in H.
  destruct (Ascii.eqb fa Ascii.zero); [left; by simplify_eq|].
  destruct (deref fvr) as [fr|]; [|done]. cbn [mbind option_bind] in H.
  destruct (Ascii.eqb fr Ascii.zero); [left; by simplify_eq|].
  cbn zeta in H.
  match type of H with (?m ≫= _) = _ => destruct m as [[in_ref' fvr']|] end;
    [|done]. cbn [mbind option_bind] in H.
  match type of H with (?m ≫= _) = _ => destruct m as [[[ass_pos' in_ass'] fva']|] end;
    [|done]. cbn [mbind option_bind] in H.
  right. by exists r0, a, fr, fa, ass_pos', in_ref', fvr', in_ass', fva'.
Qed.

(** What every [classify_column] keeps, the walk keeps. *)
Lemma walk_keeps (P : whatsit * Z → Prop) adna :
  (∀ p1 p2 r a fr fa kv, P kv → P (classify_column adna p1 p2 r a fr fa kv)) →
  ∀ paln1 paln2 ass_pos end_ in_ref fvr in_ass fva kv kv',
    P kv →
    walk adna paln1 paln2 ass_pos end_ in_ref fvr in_ass fva kv = Some kv' →
    P kv'.
Proof.
  intros Hstep. induction paln1 as [|c1 paln1 IH];
    intros paln2 ass_pos end_ in_ref fvr in_ass fva kv kv' HP H.
  { cbn in H. by simplify_eq. }
  destruct paln2 as [|c2 paln2]; [cbn in H; by simplify_eq|].
  apply walk_cons in H as [->|(r & a & fr & fa & ? & ? & ? & ? & ? & H)];
    [done|].
  eapply IH; [|exact H]. by apply Hstep.
Qed.

(** X16.  Along the walk a class never goes down in the order
    [unknown] < [clean], [dirt] < [conflict] < [nonsense], the votes
    never decrease and grow by at most the number of diagnostic
    columns walked over; where no column is diagnostic, class and
    votes come back unchanged. *)
Theorem walk_votes_bounded adna paln1 : ∀ paln2 ass_pos end_ in_ref fvr in_ass
    fva k n k' n',
  walk adna paln1 paln2 ass_pos end_ in_ref fvr in_ass fva (k, n)
  = Some (k', n') →
  rank k ≤ rank k'
  ∧ n ≤ n' ≤ n + diagnostic_columns paln1 paln2
  ∧ (diagnostic_columns paln1 paln2 = 0 → (k', n') = (k, n)).
Proof.
  induction paln1 as [|c1 paln1 IH];
    intros paln2 ass_pos end_ in_ref fvr in_ass fva k n k' n' H.
  { cbn in H. simplify_eq. pose proof (diagnostic_columns_nonneg [] paln2).
    split; [lia|]. split; [lia|done]. }
  destruct paln2 as [|c2 paln2].
  { cbn in H. simplify_eq. split; [lia|]. split; [|done].
    unfold diagnostic_columns. cbn. lia. }
  pose proof (diagnostic_columns_nonneg paln1 paln2) as Hnn.
  rewrite diagnostic_columns_cons.
  apply walk_cons in H as [H|(r & a & fr & fa & ap & ir & fvr' & ia & fva' & H)].
  { simplify_eq. split; [lia|]. split; [destruct (is_diagnostic c1 c2); lia|done]. }
  pose proof (classify_column_step adna c1 c2 r a fr fa k n) as (Hr & Hn & Hid).
  destruct (classify_column adna c1 c2 r a fr fa (k, n)) as [k1 n1].
  apply IH in H as (Hr' & Hn' & Hid'). cbn in Hr, Hn, Hid.
  split; [lia|]. split; [lia|].
  intros H0. destruct (is_diagnostic c1 c2); [lia|].
  rewrite Hid' by lia. by apply Hid.
Qed.

Lemma walk_votes_bounded_witness :
  rank unknown ≤ rank dirt
  ∧ 0 ≤ 1 ≤ 0 + diagnostic_columns ex_ref ex_ass
  ∧ (diagnostic_columns ex_ref ex_ass = 0 → (dirt, 1) = (unknown, 0)).
Proof.
  apply (walk_votes_bounded false ex_ref ex_ass 0 11 ex_ref (Some ex_ref)
           (Some ex_ass) (Some ex_ref) unknown 0 dirt 1).
  by vm_compute.
Defined.

Lemma least_None ks : least ks = None ↔ ks = [].
Proof. by destruct ks. Qed.

Lemma least_Some ks m :
  least ks = Some m ↔ m ∈ ks ∧ ∀ k, k ∈ ks → m ≤ k.
Proof.
  revert m. induction ks as [|k ks IH]; intros m.
  { cbn. split; [done|]. intros [H _]. by apply elem_of_nil in H. }
  cbn [least foldr]. fold (least ks).
  destruct (least ks) as [m'|] eqn:E.
  - pose proof (proj1 (IH m') eq_refl) as [Hin Hle].
    split.
    + intros [= <-]. split.
      * destruct (Z.min_spec k m') as [[_ ->]|[_ ->]]; [left|by right].
      * intros k' [->|Hk']%elem_of_cons; [lia|]. specialize (Hle _ Hk'). lia.
    + intros [Hm Hall]. f_equal.
      pose proof (Hall k (list_elem_of_here _ _)).
      pose proof (Hall m' (list_elem_of_further _ _ _ Hin)).
      apply elem_of_cons in Hm as [->|Hm]; [lia|]. specialize (Hle _ Hm). lia.
  - apply least_None in E as ->. split.
    + intros [= <-]. split; [left|]. by intros k' ->%list_elem_of_singleton.
    + intros [->%list_elem_of_singleton _]. done.
Qed.

Lemma elem_of_keys (l : dp_list) k :
  k ∈ map fst (map_to_list l) ↔ is_Some (l !! k).
Proof.
  rewrite list_elem_of_fmap. split.
  - intros ([k' v] & -> & H). apply elem_of_map_to_list in H. by exists v.
  - intros [v H]. exists (k, v). split; [done|]. by apply elem_of_map_to_list.
Qed.

(** What [lower_bound] finds. *)
Lemma lower_bound_spec (l : dp_list) (x : Z) :
  match lower_bound l x with
  | Some k => is_Some (l !! k) ∧ x ≤ k
              ∧ ∀ k', is_Some (l !! k') → x ≤ k' → k ≤ k'
  | None => ∀ k', is_Some (l !! k') → k' < x
  end.
Proof.
  unfold lower_bound. destruct (least _) as [k|] eqn:E.
  - apply least_Some in E as [Hin Hle].
    apply list_elem_of_filter in Hin as [Hx Hin]. apply elem_of_keys in Hin.
    repeat split; try done. intros k' Hk' Hx'. apply Hle.
    apply list_elem_of_filter. split; [done|]. by apply elem_of_keys.
  - apply least_None in E. intros k' Hk'.
    destruct (Z.lt_ge_cases k' x) as [?|Hge]; [done|].
    assert (k' ∈ filter (λ k, x ≤ k) (map fst (map_to_list l))) as Hin.
    { apply list_elem_of_filter. split; [done|]. by apply elem_of_keys. }
    rewrite E in Hin. by apply elem_of_nil in Hin.
Qed.

Lemma lower_bound_same (l : dp_list) (x y : Z) :
  x ≤ y →
  lower_bound l x = lower_bound l y
  ↔ ∀ k, is_Some (l !! k) → ¬ (x ≤ k < y).
Proof.
  intros Hxy. pose proof (lower_bound_spec l x) as Hx.
  pose proof (lower_bound_spec l y) as Hy. split.
  - intros Heq k Hk [Hk1 Hk2]. rewrite Heq in Hx.
    destruct (lower_bound l y) as [m|].
    + destruct Hx as (_ & _ & Hmin), Hy as (_ & Hym & _).
      specialize (Hmin k Hk Hk1). lia.
    + specialize (Hx k Hk). lia.
  - intros Hno.
    destruct (lower_bound l x) as [m|], (lower_bound l y) as [m'|]; try done.
    + destruct Hx as (Hm & Hxm & Hmin), Hy as (Hm' & Hym' & Hmin').
      f_equal. assert (y ≤ m) by (specialize (Hno m Hm); lia).
      specialize (Hmin m' Hm'). specialize (Hmin' m Hm). lia.
    + destruct Hx as (Hm & Hxm & _). specialize (Hy m Hm).
      specialize (Hno m Hm). lia.
    + destruct Hy as (Hm' & Hym' & _). specialize (Hx m' Hm'). lia.
Qed.

(** ** Which fragments are looked at *)

(** X13.  For a fragment with [end < INT_MAX] and [start ≤ end + 1],
    the two iterators of [overlapped_diagnostic_positions] are equal
    exactly when the index has no key in [start .. end]. *)
Theorem overlapped_empty_iff (l : dp_list) (start end_ : Z) :
  end_ < INT_MAX →
  start ≤ end_ + 1 →
  (overlapped_diagnostic_positions l start end_).1
  = (overlapped_diagnostic_positions l start end_).2
  ↔ ∀ k, is_Some (l !! k) → ¬ (start ≤ k ≤ end_).
Proof.
  intros _ H. cbn. rewrite lower_bound_same by done.
  split; intros Hno k Hk ?; apply (Hno k Hk); lia.
Qed.

Lemma overlapped_empty_iff_witness :
  (overlapped_diagnostic_positions ex_index 0 3).1
  = (overlapped_diagnostic_positions ex_index 0 3).2
  ↔ ∀ k, is_Some (ex_index !! k) → ¬ (0 ≤ k ≤ 3).
Proof. apply (overlapped_empty_iff ex_index 0 3); unfold INT_MAX; lia. Defined.

Section Classify.
Variable aligner : list ascii → list ascii → pw_aln_frag.
Variable adna : bool.
Variables aln_con aln_ass ass_seq : list ascii.
Variable l : dp_list.

(** X14.  A fragment with [end < INT_MAX], [start ≤ end + 1] and no
    index entry in [start .. end] is classified [unknown] with no vote,
    whatever its sequence and whatever the aligner would answer. *)
Theorem classify_fragment_outside (s : aln_seq) :
  s_end s < INT_MAX →
  s_start s ≤ s_end s + 1 →
  (∀ k, is_Some (l !! k) → ¬ (s_start s ≤ k ≤ s_end s)) →
  classify_fragment aligner adna aln_con aln_ass ass_seq l s
  = Some (unknown, 0).
Proof.
  intros _ Hse Hno. unfold classify_fragment. cbn zeta.
  rewrite decide_True; [done|]. cbn.
  apply lower_bound_same; [done|]. intros k Hk ?. apply (Hno k Hk). lia.
Qed.

(** X15.  Whatever the aligner answers, a classified fragment has
    votes that fit its class: none for [unknown], at least one for
    [clean] or [dirt], at least two for [conflict]. *)
Theorem classify_fragment_fits (s : aln_seq) (kv : whatsit * Z) :
  classify_fragment aligner adna aln_con aln_ass ass_seq l s = Some kv →
  fits kv.
Proof.
  unfold classify_fragment. cbn zeta. intros H.
  destruct (decide _); [by simplify_eq|].
  destruct (the_read _ _ _) as [read|]; [|done]. cbn [mbind option_bind] in H.
  destruct (the_ass _ _ _) as [ass|]; [|done]. cbn [mbind option_bind] in H.
  destruct (seek _ _ _ _) as [[paln1 paln2] ass_pos].
  destruct (deref _) as [a0|]; [|done]. cbn [mbind option_bind] in H.
  eapply (walk_keeps fits) in H; [done| |reflexivity].
  intros. by apply classify_column_fits.
Qed.

End Classify.

Lemma classify_fragment_outside_witness :
  classify_fragment side_by_side false ex_ref ex_ass ex_ass ex_index ex_short
  = Some (unknown, 0).
Proof.
  apply (classify_fragment_outside side_by_side false ex_ref ex_ass ex_ass
           ex_index ex_short).
  - cbn. unfold INT_MAX. lia.
  - cbn. lia.
  - intros k [v H]. unfold ex_index in H.
    apply lookup_singleton_Some in H as [<- _]. cbn. lia.
Defined.

Lemma classify_fragment_fits_witness : fits (dirt, 1).
Proof.
  apply (classify_fragment_fits side_by_side false ex_ref ex_ass ex_ass
           ex_index ex_whole (dirt, 1)).
  by vm_compute.
Defined.


(** X12.  The loop that looks for the fragment's first column stops at
    the first column whose assembly coordinate is [start], or at the
    end of the alignment, with [ass_pos] the coordinate of the column
    reached. *)
Theorem seek_first_column (aln1 aln2 : list ascii) (start : Z) :
  ∃ i : nat,
    seek aln1 aln2 0 start
    = (drop i aln1, drop i aln2, assembly_coordinate aln2 i)
    ∧ (assembly_coordinate aln2 i = start
       ∨ (length aln1 ≤ i)%nat ∨ (length aln2 ≤ i)%nat)
    ∧ ∀ j, (j < i)%nat → assembly_coordinate aln2 j ≠ start.
Proof.
  assert (∀ aln1 aln2 p, ∃ i : nat,
    seek aln1 aln2 p start
    = (drop i aln1, drop i aln2, p + assembly_coordinate aln2 i)
    ∧ (p + assembly_coordinate aln2 i = start
       ∨ (length aln1 ≤ i)%nat ∨ (length aln2 ≤ i)%nat)
    ∧ ∀ j, (j < i)%nat → p + assembly_coordinate aln2 j ≠ start) as Hgen.
  { clear. induction aln1 as [|c1 aln1 IH]; intros aln2 p.
    { exists 0%nat. rewrite assembly_coordinate_0, Z.add_0_r. cbn.
      split; [done|]. split; [right; left; lia|lia]. }
    destruct aln2 as [|c2 aln2].
    { exists 0%nat. rewrite assembly_coordinate_0, Z.add_0_r. cbn.
      split; [done|]. split; [right; right; lia|lia]. }
    cbn [seek]. destruct (Z.eqb_spec p start) as [->|Hne].
    { exists 0%nat. rewrite assembly_coordinate_0, Z.add_0_r. cbn.
      split; [done|]. split; [by left|lia]. }
    destruct (IH aln2 (if is_gap c2 then p else p + 1)) as (i & Hs & Hstop & Hbefore).
    exists (Datatypes.S i). rewrite Hs, assembly_coordinate_S. cbn [drop length].
    split; [|split].
    - f_equal. destruct (is_gap c2); lia.
    - destruct Hstop as [?|[?|?]]; [left|right; left|right; right];
        destruct (is_gap c2); lia.
    - intros [|j] Hj.
      + by rewrite assembly_coordinate_0, Z.add_0_r.
      + rewrite assembly_coordinate_S. specialize (Hbefore j ltac:(lia)).
        destruct (is_gap c2); lia. }
  destruct (Hgen aln1 aln2 0) as (i & Hs & Hstop & Hbefore).
  exists i. rewrite Z.add_0_l in *. split; [done|]. split; [done|].
  intros j Hj. specialize (Hbefore j Hj). by rewrite Z.add_0_l in Hbefore.
Qed.

(** ** [lift_over] *)

Lemma lift_loop_acc aln1 : ∀ aln2 p s e r,
  lift_loop aln1 aln2 p s e r = r ++ lift_loop aln1 aln2 p s e [].
Proof.
  induction aln1 as [|c1 aln1 IH]; intros [|c2 aln2] p s e r; cbn;
    try by rewrite app_nil_r.
  destruct (p <? e); [|by rewrite app_nil_r].
  destruct (negb (is_gap c1) && (s <=? p)); [|done].
  rewrite IH, (IH _ _ _ _ [c1]). by rewrite app_assoc.
Qed.

Lemma lift_loop_nil_ge aln1 : ∀ aln2 p s e, e ≤ p →
  lift_loop aln1 aln2 p s e [] = [].
Proof.
  intros [|c2 aln2]; destruct aln1; intros; cbn; try done.
  by destruct (Z.ltb_spec p e); [lia|].
Qed.

(** Past the lower end of the range, the lower end no longer matters. *)
Lemma lift_loop_low aln1 : ∀ aln2 p s s' e, s ≤ p → s' ≤ p →
  lift_loop aln1 aln2 p s e [] = lift_loop aln1 aln2 p s' e [].
Proof.
  induction aln1 as [|c1 aln1 IH]; intros [|c2 aln2] p s s' e Hs Hs'; cbn;
    try done.
  destruct (p <? e); [|done].
  destruct (Z.leb_spec s p); [|lia]. destruct (Z.leb_spec s' p); [|lia].
  destruct (negb (is_gap c1) && true).
  - rewrite lift_loop_acc, (lift_loop_acc _ _ _ s'). f_equal.
    apply IH; destruct (is_gap c2); lia.
  - apply IH; destruct (is_gap c2); lia.
Qed.

(** X9.  The lifted string holds no gap and is a subsequence of the
    reference row. *)
Theorem lift_over_no_gap aln1 aln2 s e :
  Forall (λ c, is_gap c = false) (lift_over aln1 aln2 s e)
  ∧ sublist (lift_over aln1 aln2 s e) aln1.
Proof.
  unfold lift_over. generalize 0 as p. revert aln2.
  induction aln1 as [|c1 aln1 IH]; intros [|c2 aln2] p; cbn;
    try (split; [constructor|apply sublist_nil_l]).
  destruct (p <? e); [|split; [constructor|apply sublist_nil_l]].
  destruct (IH aln2 (if is_gap c2 then p else p + 1)) as [IH1 IH2].
  destruct (is_gap c1) eqn:Hg; cbn [negb andb].
  - split; [done|]. by apply sublist_cons.
  - destruct (s <=? p).
    + rewrite lift_loop_acc. cbn. split; [by constructor|]. by apply sublist_skip.
    + split; [done|]. by apply sublist_cons.
Qed.

(** X10.  Lifting a range is lifting its two halves and joining the
    results. *)
Theorem lift_over_split aln1 aln2 s m e :
  s ≤ m → m ≤ e →
  lift_over aln1 aln2 s e
  = lift_over aln1 aln2 s m ++ lift_over aln1 aln2 m e.
Proof.
  intros Hsm Hme. unfold lift_over. generalize 0 as p. revert aln2.
  induction aln1 as [|c1 aln1 IH]; intros [|c2 aln2] p; cbn; try done.
  destruct (Z.ltb_spec p e); destruct (Z.ltb_spec p m); try lia; try done.
  - (* p < m *)
    destruct (Z.leb_spec m p); [lia|]. rewrite andb_false_r.
    destruct (negb (is_gap c1) && (s <=? p)).
    + rewrite lift_loop_acc, (lift_loop_acc _ _ _ s m).
      rewrite <- app_assoc. f_equal. apply IH.
    + apply IH.
  - (* m ≤ p < e *)
    destruct (Z.leb_spec s p); [|lia]. destruct (Z.leb_spec m p); [|lia].
    cbn [app]. destruct (negb (is_gap c1) && true).
    + rewrite lift_loop_acc, (lift_loop_acc _ _ _ m). f_equal.
      apply lift_loop_low; destruct (is_gap c2); lia.
    + apply lift_loop_low; destruct (is_gap c2); lia.
Qed.

Lemma lift_over_split_witness :
  lift_over ex_ref ex_ass 2 9
  = lift_over ex_ref ex_ass 2 5 ++ lift_over ex_ref ex_ass 5 9.
Proof. apply (lift_over_split ex_ref ex_ass 2 5 9); lia. Defined.

(** X11.  On an alignment without gaps the lifted string is the slice
    [s .. e) of the reference. *)
Theorem lift_over_gap_free aln1 aln2 s e :
  Forall (λ c, is_gap c = false) aln1 →
  Forall (λ c, is_gap c = false) aln2 →
  (length aln1 ≤ length aln2)%nat →
  0 ≤ s → s ≤ e →
  lift_over aln1 aln2 s e
  = take (Z.to_nat (e - s)) (drop (Z.to_nat s) aln1).
Proof.
  intros H1 H2 Hlen Hs Hse. unfold lift_over.
  assert (∀ aln1 aln2 p,
    Forall (λ c, is_gap c = false) aln1 →
    Forall (λ c, is_gap c = false) aln2 →
    (length aln1 ≤ length aln2)%nat → 0 ≤ p →
    lift_loop aln1 aln2 p s e []
    = take (Z.to_nat (e - Z.max s p)) (drop (Z.to_nat (s - p)) aln1)) as Hgen.
  { clear. induction aln1 as [|c1 aln1 IH]; intros aln2 p H1 H2 Hlen Hp.
    { cbn. by rewrite drop_nil, take_nil. }
    destruct aln2 as [|c2 aln2]; [cbn in Hlen; lia|].
    apply Forall_cons in H1 as [Hc1 H1]. apply Forall_cons in H2 as [Hc2 H2].
    cbn [lift_loop]. rewrite Hc1, Hc2. cbn [negb andb].
    destruct (Z.ltb_spec p e).
    - destruct (Z.leb_spec s p).
      + rewrite lift_loop_acc, IH by (done || cbn in Hlen; lia).
        replace (Z.to_nat (s - p)) with 0%nat by lia.
        replace (Z.to_nat (s - (p + 1))) with 0%nat by lia.
        rewrite !drop_0.
        replace (Z.to_nat (e - Z.max s p)) with (Datatypes.S (Z.to_nat (e - Z.max s (p + 1)))) by lia.
        done.
      + rewrite IH by (done || cbn in Hlen; lia).
        replace (Z.to_nat (s - p)) with (Datatypes.S (Z.to_nat (s - (p + 1)))) by lia.
        cbn [drop]. do 2 f_equal. lia.
    - replace (Z.to_nat (e - Z.max s p)) with 0%nat by lia. done. }
  rewrite Hgen by (done || lia). do 2 f_equal; lia.
Qed.

Lemma lift_over_gap_free_witness :
  lift_over ex_ref ex_ass 4 9
  = take (Z.to_nat (9 - 4)) (drop (Z.to_nat 4) ex_ref).
Proof.
  apply (lift_over_gap_free ex_ref ex_ass 4 9);
    [by repeat constructor|by repeat constructor|cbn; lia|lia|lia].
Defined.

(** ** More on [mk_dp_list] *)

(** What every insertion of the loop satisfies, every entry of the
    result satisfies; the counter starts at or below [span_to]. *)
Lemma mk_dp_loop_entries (Q : Z → ascii * ascii → Prop) tv t aln1 :
  ∀ aln2 c (l : dp_list),
  c ≤ t →
  (∀ c1 c2 key, c ≤ key < t → is_diagnostic c1 c2 = true →
                (tv = true → is_transversion c1 c2 = true) →
                Q key (c1, c2)) →
  (∀ key v, l !! key = Some v → Q key v) →
  ∀ key v, mk_dp_loop aln1 aln2 tv c t l !! key = Some v → Q key v.
Proof.
  induction aln1 as [|c1 aln1 IH]; intros [|c2 aln2] c l Hct HQ Hl key v; cbn;
    try apply Hl.
  destruct (Z.eqb_spec c t) as [|Hne]; [apply Hl|].
  apply IH.
  - destruct (is_gap c2); lia.
  - intros c1' c2' key' Hk. apply HQ. destruct (is_gap c2); lia.
  - intros key' v'. destruct (is_diagnostic c1 c2 && _) eqn:E; [|apply Hl].
    intros [[<- <-]|[_ H]]%lookup_insert_Some; [|by apply Hl].
    apply andb_true_iff in E as [E1 E2]. apply HQ; [lia|done|].
    intros ->. by rewrite orb_false_l in E2.
Qed.

(** X7.  For a span with [span_from ≤ span_to] (the counter then stays
    between the two, inside the [int] range), each entry of the index
    has its key in [span_from, span_to) and holds a pair of two
    different symbols, neither [N] nor a gap, which [is_transversion]
    accepts when the filter is on. *)
Theorem mk_dp_list_entries aln1 aln2 tv span_from span_to key r a :
  span_from ≤ span_to →
  mk_dp_list aln1 aln2 tv span_from span_to !! key = Some (r, a) →
  span_from ≤ key < span_to
  ∧ r ≠ a ∧ r ≠ "N"%char ∧ a ≠ "N"%char ∧ r ≠ "-"%char ∧ a ≠ "-"%char
  ∧ (tv = true → is_transversion r a = true).
Proof.
  intros Hspan. unfold mk_dp_list.
  apply (mk_dp_loop_entries
           (λ key v, span_from ≤ key < span_to
              ∧ v.1 ≠ v.2 ∧ v.1 ≠ "N"%char ∧ v.2 ≠ "N"%char
              ∧ v.1 ≠ "-"%char ∧ v.2 ≠ "-"%char
              ∧ (tv = true → is_transversion v.1 v.2 = true))); [done| |].
  - intros c1 c2 key' Hk Hd Ht. cbn. split; [done|].
    unfold is_diagnostic in Hd. rewrite !andb_true_iff, !negb_true_iff in Hd.
    destruct Hd as ((((H1 & H2) & H3) & H4) & H5).
    repeat split; try done; intros ->; by rewrite Ascii.eqb_refl in *.
  - intros ??. by rewrite lookup_empty.
Qed.

Lemma mk_dp_list_entries_witness :
  0 ≤ 6 < 100
  ∧ "G"%char ≠ "C"%char ∧ "G"%char ≠ "N"%char ∧ "C"%char ≠ "N"%char
  ∧ "G"%char ≠ "-"%char ∧ "C"%char ≠ "-"%char
  ∧ (false = true → is_transversion "G" "C" = true).
Proof.
  apply (mk_dp_list_entries ex_ref ex_ass false 0 100 6 "G" "C"); [lia|].
  by vm_compute.
Defined.

Lemma mk_dp_loop_subset tv aln1 : ∀ aln2 c t (l l' : dp_list),
  l ⊆ l' →
  (∀ key v, l !! key = Some v → key < c) →
  mk_dp_loop aln1 aln2 true c t l ⊆ mk_dp_loop aln1 aln2 tv c t l'.
Proof.
  induction aln1 as [|c1 aln1 IH]; intros [|c2 aln2] c t l l' Hl Hlt; cbn;
    try done.
  destruct (c =? t); [done|].
  destruct (is_diagnostic c1 c2) eqn:Hd; cbn [andb negb orb].
  2:{ apply IH; [done|]. intros key v H. apply Hlt in H.
      destruct (is_gap c2); lia. }
  rewrite (is_diagnostic_no_gap _ _ Hd).
  assert (l !! c = None) as Hc.
  { destruct (l !! c) eqn:E; [|done]. apply Hlt in E. lia. }
  destruct (is_transversion c1 c2).
  - rewrite orb_true_r. apply IH; [by apply insert_mono|].
    intros key v [[<- _]|[_ H]]%lookup_insert_Some; [lia|].
    apply Hlt in H. lia.
  - rewrite orb_false_r. apply IH.
    + destruct (negb tv); [|done]. by apply insert_subseteq_r.
    + intros key v H. apply Hlt in H. lia.
Qed.

(** X8.  Asking for transversions only removes entries from the index:
    it never adds one and never changes one. *)
Theorem mk_dp_list_transversions_subset aln1 aln2 span_from span_to :
  mk_dp_list aln1 aln2 true span_from span_to
  ⊆ mk_dp_list aln1 aln2 false span_from span_to.
Proof.
  apply mk_dp_loop_subset; [done|]. intros ??. by rewrite lookup_empty.
Qed.

(** ** The tally *)

Lemma total_count_up k t :
  length (summary t) = 5%nat →
  total (count_up k t) = total t + 1
  ∧ length (summary (count_up k t)) = 5%nat.
Proof.
  unfold total, count_up. cbn [summary]. intros H.
  destruct (summary t) as [|n0 [|n1 [|n2 [|n3 [|n4 [|]]]]]]; try done.
  destruct k; cbn; split; try done; lia.
Qed.

Lemma finish_total f t :
  length (summary t) = 5%nat →
  total (finish f t) = total t + (if tallied f then 1 else 0)
  ∧ length (summary (finish f t)) = 5%nat.
Proof.
  intros H. unfold finish, tallied.
  destruct (Ascii.eqb_spec (segment f) "b") as [->|_].
  { cbn. split; [unfold total; cbn; lia|done]. }
  destruct (Ascii.eqb (segment f) "f"); cbn [orb].
  { by apply total_count_up. }
  destruct (Ascii.eqb (segment f) "a").
  { by apply total_count_up. }
  split; [lia|done].
Qed.

(** X19.  A run adds to the counts of the summary one for each
    fragment of role ['f'] or ['a'] and nothing for any other. *)
Theorem run_total (fs : list fragment) : ∀ t,
  length (summary t) = 5%nat →
  total (run fs t) = total t + Z.of_nat (length (filter (λ f, tallied f = true) fs))
  ∧ length (summary (run fs t)) = 5%nat.
Proof.
  induction fs as [|f fs IH]; intros t H.
  { cbn. split; [lia|done]. }
  change (run (f :: fs) t) with (run fs (finish f t)).
  destruct (finish_total f t H) as [Ht Hl].
  destruct (IH _ Hl) as [IH1 IH2].
  split; [|done]. rewrite IH1, Ht.
  destruct (tallied f) eqn:E.
  - rewrite filter_cons_True by done. cbn [length]. lia.
  - rewrite filter_cons_False; [lia|]. by rewrite E.
Qed.

Lemma run_total_witness :
  total (run [Fragment "r1" "b" dirt 2; Fragment "r2" "a" clean 1;
              Fragment "r1" "f" clean 1] tally0)
  = total tally0 + 2
  ∧ length (summary (run [Fragment "r1" "b" dirt 2; Fragment "r2" "a" clean 1;
                          Fragment "r1" "f" clean 1] tally0)) = 5%nat.
Proof.
  apply (run_total [Fragment "r1" "b" dirt 2; Fragment "r2" "a" clean 1;
                    Fragment "r1" "f" clean 1] tally0).
  reflexivity.
Defined.

(** X20.  A back half followed by its front half: the front finds
    the cached class and votes, the pair is counted once, under the
    merged class, and votes that fit the two classes add up to votes
    that fit the merged one. *)
Theorem pair_is_merged (b f : fragment) (t : tally) :
  segment b = "b"%char → segment f = "f"%char → id f = id b →
  reconcile f (finish b t)
  = (merge_whatsit (klass f) (klass b), votes f + votes b)
  ∧ summary (run [b; f] t)
    = summary (count_up (merge_whatsit (klass f) (klass b)) t)
  ∧ (fits (klass b, votes b) → fits (klass f, votes f) →
     fits (reconcile f (finish b t))).
Proof.
  intros Hb Hf Hid.
  assert (reconcile f (finish b t)
          = (merge_whatsit (klass f) (klass b), votes f + votes b)) as Hr.
  { unfold reconcile, finish. rewrite Hb. cbn. rewrite Hid, lookup_insert_eq. reflexivity. }
  split; [done|]. split.
  - change (run [b; f] t) with (finish f (finish b t)).
    unfold finish at 1. rewrite Hf. cbn [Ascii.eqb Bool.eqb andb].
    rewrite Hr. unfold count_up. cbn [summary fst].
    by rewrite (finish_back _ _ Hb).
  - rewrite Hr. unfold fits. cbn [fst snd].
    destruct (klass b), (klass f);
      match goal with |- context [merge_whatsit ?x ?y] =>
        let r := eval vm_compute in (merge_whatsit x y) in
        change (merge_whatsit x y) with r end; cbn beta iota; lia.
Qed.

Lemma pair_is_merged_witness :
  summary (run [Fragment "r1" "b" dirt 2; Fragment "r1" "f" clean 1] tally0)
  = summary (count_up (merge_whatsit clean dirt) tally0).
Proof.
  exact (proj1 (proj2
    (pair_is_merged (Fragment "r1" "b" dirt 2) (Fragment "r1" "f" clean 1)
       tally0 eq_refl eq_refl eq_refl))).
Defined.

(** X21.  No entry ever leaves the cache of back halves. *)
Theorem bfrags_kept (fs : list fragment) : ∀ (t : tally) (i : string),
  is_Some (bfrags t !! i) → is_Some (bfrags (run fs t) !! i).
Proof.
  induction fs as [|f fs IH]; intros t i H; [done|].
  cbn. apply IH. unfold finish, count_up.
  repeat case_match; cbn; try done.
  destruct (decide (i = id f)) as [->|?].
  - by rewrite lookup_insert_eq.
  - by rewrite lookup_insert_ne.
Qed.

Lemma bfrags_kept_witness :
  is_Some (bfrags (run [Fragment "r1" "f" clean 1; Fragment "r2" "b" clean 1]
                       (finish (Fragment "r1" "b" dirt 2) tally0)) !! "r1"%string).
Proof.
  apply (bfrags_kept [Fragment "r1" "f" clean 1; Fragment "r2" "b" clean 1]
           (finish (Fragment "r1" "b" dirt 2) tally0) "r1"%string).
  by eexists.
Defined.


(** ** [is_transversion], [consistent], [the_read] *)

(** X23.  On two different bases among [A], [C], [G], [T], in either
    case, [is_transversion] holds exactly for a purine / pyrimidine
    change, and does not depend on the order of its arguments. *)
Theorem is_transversion_plain (a b : ascii) :
  a ∈ plain_bases → b ∈ plain_bases → clear32 a ≠ clear32 b →
  is_transversion a b = class_change a b
  ∧ is_transversion b a = is_transversion a b.
Proof.
  unfold plain_bases. intros Ha Hb.
  repeat (apply elem_of_cons in Ha as [->|Ha]);
    try (by apply elem_of_nil in Ha);
    repeat (apply elem_of_cons in Hb as [->|Hb]);
    try (by apply elem_of_nil in Hb);
    intros H; first [by vm_compute | by exfalso; apply H].
Qed.

Lemma is_transversion_plain_witness :
  is_transversion "A" "c" = class_change "A" "c"
  ∧ is_transversion "c" "A" = is_transversion "A" "c".
Proof.
  apply (is_transversion_plain "A" "c"); [set_solver|set_solver|by vm_compute].
Defined.

(** X24.  Ancient-DNA mode only adds consistent pairs; without it
    [consistent] is symmetric; a gap is consistent with everything. *)
Theorem consistent_ancient_permissive (x y : ascii) :
  (consistent false x y = true → consistent true x y = true)
  ∧ consistent false x y = consistent false y x
  ∧ ∀ adna, consistent adna "-" y = true ∧ consistent adna x "-" = true.
Proof.
  split; [|split].
  - unfold consistent.
    destruct (Ascii.eqb_spec x "G") as [->|_].
    { destruct y as [[] [] [] [] [] [] [] []]; vm_compute; auto. }
    destruct (Ascii.eqb_spec x "C") as [->|_]; [|done].
    destruct y as [[] [] [] [] [] [] [] []]; vm_compute; auto.
  - unfold consistent. rewrite Z.land_comm.
    by destruct (Ascii.eqb x "-"), (Ascii.eqb y "-").
  - intros adna. unfold consistent. split; [done|].
    by destruct (Ascii.eqb x "-").
Qed.

Lemma the_read_acc seq : ∀ ins r,
  the_read seq ins r = (λ s, r ++ s) <$> the_read seq ins [].
Proof.
  induction seq as [|nt seq IH]; intros ins r.
  { cbn. by rewrite app_nil_r. }
  destruct ins as [|i ins]; [done|]. cbn [the_read].
  rewrite IH. rewrite (IH ins (match i with Some s => _ | None => _ end)).
  destruct (the_read seq ins []) as [s|]; [|done]. cbn. f_equal.
  destruct (is_gap nt), i; cbn; by rewrite <- ?app_assoc.
Qed.

(** X25.  [the_read] is read within bounds exactly when [ins] has an
    entry for every position of [seq]; with no insertion at all it is
    [seq] without its gaps. *)
Theorem the_read_defined (seq : list ascii) (ins : list (option (list ascii))) :
  (is_Some (the_read seq ins []) ↔ (length seq ≤ length ins)%nat)
  ∧ the_read seq (replicate (length seq) None) []
    = Some (filter (λ c, is_gap c = false) seq).
Proof.
  split.
  - revert ins. induction seq as [|nt seq IH]; intros ins.
    { cbn. split; [lia|by eexists]. }
    destruct ins as [|i ins]; cbn [the_read length].
    { split; [by intros [??]|lia]. }
    rewrite the_read_acc, fmap_is_Some, IH. lia.
  - induction seq as [|nt seq IH]; [done|].
    cbn [length replicate the_read]. rewrite the_read_acc, IH.
    destruct (is_gap nt) eqn:E.
    + rewrite filter_cons_False; [done|]. by rewrite E.
    + by rewrite filter_cons_True.
Qed.
